(** * grpcutils / pkg/authorization: a shallow embedding and its properties

    The development follows [pkg/authorization]: scheme-name validation
    ([validateMethod]), the metadata codec ([AppendToOutgoingContext] and
    the regular expression used by [parseMeta]), the validation engine
    ([parseMeta]), typed retrieval ([GetFromContext]) and the two
    interceptors.

    Go strings are byte sequences: they are modelled by [string], whose
    characters are the 8-bit [ascii].  The parts of the Go standard library
    and of grpc-go that the package calls ([utf8], [unicode], [strings],
    [errors], [regexp], [reflect], [metadata], [context]) are modelled by
    their documented behaviour, under the name they have in Go. *)

From Stdlib Require Import ZArith Ascii String List Bool Lia.
From stdpp Require Import gmap strings list.

Local Open Scope Z_scope.
Local Open Scope string_scope.

(** ** Strings as byte sequences *)

Definition byte_val (c : ascii) : Z := Z.of_N (N_of_ascii c).
Definition byte_of (z : Z) : ascii := ascii_of_N (Z.to_N (z mod 256)).

Definition in_range (lo hi b : Z) : bool := ((lo <=? b) && (b <=? hi))%Z.

Fixpoint string_drop (n : nat) (s : string) : string :=
  match n, s with
  | O, _ => s
  | S _, EmptyString => EmptyString
  | S n', String _ s' => string_drop n' s'
  end.

Fixpoint string_forall (p : ascii -> bool) (s : string) : bool :=
  match s with
  | EmptyString => true
  | String c s' => p c && string_forall p s'
  end.

(** The longest prefix of [s] whose bytes satisfy [p], and what follows it. *)
Fixpoint take_while (p : ascii -> bool) (s : string) : string :=
  match s with
  | EmptyString => EmptyString
  | String c s' => if p c then String c (take_while p s') else EmptyString
  end.

Fixpoint drop_while (p : ascii -> bool) (s : string) : string :=
  match s with
  | EmptyString => EmptyString
  | String c s' => if p c then drop_while p s' else s
  end.

Definition is_empty (s : string) : bool :=
  match s with EmptyString => true | String _ _ => false end.

(** The double-quote character, for messages that quote a name. *)
Definition dquote : string := String (ascii_of_nat 34) EmptyString.

(** ** unicode/utf8 *)

Definition rune := Z.

Definition RuneError : rune := 65533.
Definition RuneSelf : Z := 128.
Definition MaxRune : rune := 1114111.

(** [acceptRange b0]: for a leading byte, the length of the sequence and
    the range its second byte must lie in (utf8's [first] and
    [acceptRanges] tables); [None] for a byte that starts no sequence. *)
Definition acceptRange (b0 : Z) : option (nat * Z * Z) :=
  if in_range 194 223 b0 then Some (2%nat, 128, 191)%Z
  else if (b0 =? 224)%Z then Some (3%nat, 160, 191)%Z
  else if in_range 225 236 b0 then Some (3%nat, 128, 191)%Z
  else if (b0 =? 237)%Z then Some (3%nat, 128, 159)%Z
  else if in_range 238 239 b0 then Some (3%nat, 128, 191)%Z
  else if (b0 =? 240)%Z then Some (4%nat, 144, 191)%Z
  else if in_range 241 243 b0 then Some (4%nat, 128, 191)%Z
  else if (b0 =? 244)%Z then Some (4%nat, 128, 143)%Z
  else None.

Definition low6 (b : Z) : Z := Z.land b 63.

(** utf8.DecodeRuneInString: the first rune of [s] and its width in bytes;
    an invalid or truncated encoding yields [(RuneError, 1)]. *)
Definition DecodeRuneInString (s : string) : rune * nat :=
  match s with
  | EmptyString => (RuneError, 0%nat)
  | String c0 s1 =>
    let b0 := byte_val c0 in
    if (b0 <? RuneSelf)%Z then (b0, 1%nat) else
    match acceptRange b0 with
    | None => (RuneError, 1%nat)
    | Some (sz, lo, hi) =>
      match s1 with
      | EmptyString => (RuneError, 1%nat)
      | String c1 s2 =>
        let b1 := byte_val c1 in
        if negb (in_range lo hi b1) then (RuneError, 1%nat) else
        if (sz <=? 2)%nat
        then (Z.lor (Z.shiftl (Z.land b0 31) 6) (low6 b1), 2%nat) else
        match s2 with
        | EmptyString => (RuneError, 1%nat)
        | String c2 s3 =>
          let b2 := byte_val c2 in
          if negb (in_range 128 191 b2) then (RuneError, 1%nat) else
          if (sz <=? 3)%nat
          then (Z.lor (Z.shiftl (Z.land b0 15) 12)
                  (Z.lor (Z.shiftl (low6 b1) 6) (low6 b2)), 3%nat) else
          match s3 with
          | EmptyString => (RuneError, 1%nat)
          | String c3 _ =>
            let b3 := byte_val c3 in
            if negb (in_range 128 191 b3) then (RuneError, 1%nat) else
            (Z.lor (Z.shiftl (Z.land b0 7) 18)
               (Z.lor (Z.shiftl (low6 b1) 12)
                  (Z.lor (Z.shiftl (low6 b2) 6) (low6 b3))), 4%nat)
          end
        end
      end
    end
  end.

(** [for _, r := range s]: the runes of [s] in order.  Every step consumes
    at least one byte, so [String.length s] steps exhaust the string. *)
Fixpoint range_runes_from (fuel : nat) (s : string) : list rune :=
  match fuel with
  | O => []
  | S fuel' =>
    match s with
    | EmptyString => []
    | String _ _ =>
      let '(r, w) := DecodeRuneInString s in
      r :: range_runes_from fuel' (string_drop w s)
    end
  end.

Definition range_runes (s : string) : list rune :=
  range_runes_from (String.length s) s.

(** utf8.AppendRune: the encoding of one rune; surrogates and values out
    of range are written as [RuneError]. *)
Definition EncodeRune (r : rune) : string :=
  let cont (z : Z) := byte_of (Z.lor 128 (low6 z)) in
  let three (x : Z) :=
    String (byte_of (Z.lor 224 (Z.shiftr x 12)))
      (String (cont (Z.shiftr x 6)) (String (cont x) EmptyString)) in
  if in_range 0 127 r then String (byte_of r) EmptyString
  else if in_range 128 2047 r then
    String (byte_of (Z.lor 192 (Z.shiftr r 6))) (String (cont r) EmptyString)
  else if (r <? 0)%Z || (MaxRune <? r)%Z || in_range 55296 57343 r then three RuneError
  else if (r <=? 65535)%Z then three r
  else
    String (byte_of (Z.lor 240 (Z.shiftr r 18)))
      (String (cont (Z.shiftr r 12))
         (String (cont (Z.shiftr r 6)) (String (cont r) EmptyString))).

(** ** unicode

    The tables of package [unicode] above Latin-1 are not part of the
    repository; they are taken as parameters.  The Latin-1 range is the
    one [unicode] special-cases with its [properties] array. *)

Record UnicodeTables : Type := {
  (** [isExcludingLatin(Letter, r)], consulted for [r > MaxLatin1] *)
  Letter_excludingLatin : rune -> bool;
  (** [isExcludingLatin(Digit, r)], consulted for [r > MaxLatin1] *)
  Digit_excludingLatin : rune -> bool;
  (** [To(LowerCase, r)], consulted for [r > MaxASCII] *)
  To_LowerCase : rune -> rune
}.

Definition MaxASCII : rune := 127.
Definition MaxLatin1 : rune := 255.

(** The Latin-1 letters of [unicode.properties] (classes Lu, Ll and Lo). *)
Definition latin1_letter (r : rune) : bool :=
  in_range 65 90 r || in_range 97 122 r
  || (r =? 170)%Z || (r =? 181)%Z || (r =? 186)%Z
  || in_range 192 214 r || in_range 216 246 r || in_range 248 255 r.

Definition unicode_IsLetter (U : UnicodeTables) (r : rune) : bool :=
  if in_range 0 MaxLatin1 r then latin1_letter r
  else Letter_excludingLatin U r.

Definition unicode_IsDigit (U : UnicodeTables) (r : rune) : bool :=
  if (r <=? MaxLatin1)%Z then in_range 48 57 r
  else Digit_excludingLatin U r.

Definition unicode_ToLower (U : UnicodeTables) (r : rune) : rune :=
  if (r <=? MaxASCII)%Z then
    (if in_range 65 90 r then r + 32 else r)%Z
  else To_LowerCase U r.

(** Tables with no letter or digit above Latin-1 and no case mapping above
    ASCII: enough to run the package on ASCII input. *)
Definition latin1_tables : UnicodeTables :=
  {| Letter_excludingLatin := fun _ => false;
     Digit_excludingLatin := fun _ => false;
     To_LowerCase := fun r => r |}.

(** ** strings *)

(** strings.Map, which [strings.ToLower] applies to [unicode.ToLower]: the
    mapped runes are re-encoded, a negative result is dropped. *)
Definition strings_Map (mapping : rune -> rune) (s : string) : string :=
  fold_right
    (fun r acc => let r' := mapping r in
                  if (r' <? 0)%Z then acc else EncodeRune r' +:+ acc)
    EmptyString (range_runes s).

Definition strings_ToLower (U : UnicodeTables) (s : string) : string :=
  strings_Map (unicode_ToLower U) s.

(** [strings.Contains(s, " ")] *)
Definition contains_space (s : string) : bool :=
  negb (string_forall (fun c => negb (byte_val c =? 32)%Z) s).

(** ** errors and fmt.Errorf

    [errorString] is the value [errors.New] returns: a pointer, compared by
    identity, which [id] stands for.  [wrapError] is the value [fmt.Errorf]
    returns for a format with one [%w] verb: the formatted message and the
    wrapped error.  The targets of [errors.Is] in this package are always
    [errors.New] values. *)

Inductive error : Type :=
  | errorString (id : nat) (s : string)
  | wrapError (msg : string) (err : error).

#[global] Instance error_eq_dec : EqDecision error.
Proof. solve_decision. Defined.

Definition Error (e : error) : string :=
  match e with
  | errorString _ s => s
  | wrapError msg _ => msg
  end.

Definition errors_Unwrap (e : error) : option error :=
  match e with
  | errorString _ _ => None
  | wrapError _ err => Some err
  end.

Fixpoint errors_Is (err target : error) : bool :=
  bool_decide (err = target)
  || match err with
     | errorString _ _ => false
     | wrapError _ inner => errors_Is inner target
     end.

(** [fmt.Errorf("%w" + rest, err, ...)], where [rest] is the text that the
    remaining verbs produce after the wrapped error's message. *)
Definition fmt_Errorf_w (err : error) (rest : string) : error :=
  wrapError (Error err +:+ rest) err.

(** ** regexp

    The fragment of RE2 syntax that [authorizationMetaRegex] uses, with
    Go's leftmost-first (backtracking priority) semantics and greedy
    repetition.  The character classes of the pattern are ASCII-only, so
    matching byte by byte yields the submatches that Go computes rune by
    rune. *)

Inductive cclass : Type :=
  | cls_space       (** [\s], that is [[\t\n\f\r ]] *)
  | cls_not_space   (** [[^\s]] *)
  | cls_dot.        (** [.] without the [s] flag: anything but [\n] *)

Definition perl_space (c : ascii) : bool :=
  let b := byte_val c in
  ((b =? 9) || (b =? 10) || (b =? 12) || (b =? 13) || (b =? 32))%Z.

Definition is_newline (c : ascii) : bool := (byte_val c =? 10)%Z.

Definition in_class (k : cclass) (c : ascii) : bool :=
  match k with
  | cls_space => perl_space c
  | cls_not_space => negb (perl_space c)
  | cls_dot => negb (is_newline c)
  end.

Inductive regex : Type :=
  | re_begin_line                   (** [^] under [(?m)] *)
  | re_begin_text                   (** [^] without [(?m)] *)
  | re_plus (k : cclass)            (** [k+] *)
  | re_star (k : cclass)            (** [k*] *)
  | re_group (i : nat) (r : regex)  (** capturing group number [i] *)
  | re_cat (r1 r2 : regex).

Fixpoint string_take (n : nat) (s : string) : string :=
  match n, s with
  | O, _ => EmptyString
  | S _, EmptyString => EmptyString
  | S n', String c s' => String c (string_take n' s')
  end.

(** The text consumed between the position where [s] starts and the later
    position where [t] starts. *)
Definition consumed (s t : string) : string :=
  string_take (String.length s - String.length t) s.

Definition captures := list (nat * string).

(** A position in the text is the byte before it, if any, and the text
    after it.  [cont] is what remains to be matched; a failure of [cont]
    makes the repetition give back one byte and try again. *)
Fixpoint star_class {A : Type} (k : cclass) (prev : option ascii) (s : string)
    (cont : option ascii -> string -> option A) : option A :=
  match s with
  | EmptyString => cont prev s
  | String c s' =>
    if in_class k c then
      match star_class k (Some c) s' cont with
      | Some r => Some r
      | None => cont prev s
      end
    else cont prev s
  end.

Fixpoint re_match {A : Type} (r : regex) (prev : option ascii) (s : string)
    (caps : captures)
    (cont : option ascii -> string -> captures -> option A) : option A :=
  match r with
  | re_begin_line =>
    match prev with
    | None => cont prev s caps
    | Some c => if is_newline c then cont prev s caps else None
    end
  | re_begin_text =>
    match prev with
    | None => cont prev s caps
    | Some _ => None
    end
  | re_plus k =>
    match s with
    | EmptyString => None
    | String c s' =>
      if in_class k c
      then star_class k (Some c) s' (fun p t => cont p t caps)
      else None
    end
  | re_star k => star_class k prev s (fun p t => cont p t caps)
  | re_group i r' =>
    re_match r' prev s caps (fun p t cs => cont p t ((i, consumed s t) :: cs))
  | re_cat r1 r2 =>
    re_match r1 prev s caps (fun p t cs => re_match r2 p t cs cont)
  end.

(** The leftmost position at which the expression matches. *)
Fixpoint find_from (re : regex) (prev : option ascii) (s : string)
    : option captures :=
  match re_match re prev s [] (fun _ t cs => Some ((O, consumed s t) :: cs)) with
  | Some cs => Some cs
  | None =>
    match s with
    | EmptyString => None
    | String c s' => find_from re (Some c) s'
    end
  end.

Fixpoint NumSubexp (re : regex) : nat :=
  match re with
  | re_group i r => Nat.max i (NumSubexp r)
  | re_cat r1 r2 => Nat.max (NumSubexp r1) (NumSubexp r2)
  | _ => O
  end.

Fixpoint capture (i : nat) (cs : captures) : string :=
  match cs with
  | [] => EmptyString
  | (j, t) :: cs' => if Nat.eqb i j then t else capture i cs'
  end.

(** Regexp.FindStringSubmatch: [None] is the nil slice; otherwise the
    text of the match followed by the text of each group. *)
Definition FindStringSubmatch (re : regex) (s : string) : option (list string) :=
  match find_from re None s with
  | None => None
  | Some cs => Some (map (fun i => capture i cs) (seq 0 (S (NumSubexp re))))
  end.

(** [res[i]] for a slice known to be long enough. *)
Definition elem_at (res : list string) (i : nat) : string := nth i res EmptyString.

(** ** Panics *)

Inductive result (A : Type) : Type :=
  | Return (a : A)
  | Panic (msg : string).
Arguments Return {A} a.
Arguments Panic {A} msg.

#[global] Instance result_ret : MRet result := fun A a => Return a.
#[global] Instance result_bind : MBind result := fun A B f m =>
  match m with
  | Return a => f a
  | Panic msg => Panic msg
  end.

(** ** reflect

    A fragment of Go's types: [bool], [int], [string], pointers, slices,
    channels and structs, each possibly a defined (named) type.  The
    fragment has no interface types and no methods, so a value of one of
    these types is never an [error]. *)

Inductive ChanDir : Type := RecvDir | SendDir | BothDir.

Inductive Kind : Type :=
  kInvalid | kBool | kInt | kString | kPtr | kSlice | kChan | kStruct.

#[global] Instance ChanDir_eq_dec : EqDecision ChanDir.
Proof. solve_decision. Defined.
#[global] Instance Kind_eq_dec : EqDecision Kind.
Proof. solve_decision. Defined.

(** A type descriptor: the name of a defined type, if it is one
    ([HasName]), and its underlying structure; the fields of a struct are
    its names and types in order. *)
Inductive rtype : Type :=
  | Ty (name : option string) (sh : shape)
with shape : Type :=
  | sBool
  | sInt
  | sString
  | sPtr (elem : rtype)
  | sSlice (elem : rtype)
  | sChan (dir : ChanDir) (elem : rtype)
  | sStruct (fs : fields)
with fields : Type :=
  | no_fields
  | field (fname : string) (ftyp : rtype) (rest : fields).

Scheme rtype_mut := Induction for rtype Sort Prop
  with shape_mut := Induction for shape Sort Prop
  with fields_mut := Induction for fields Sort Prop.
Combined Scheme rtype_mutind from rtype_mut, shape_mut, fields_mut.

(** [T == V] on type descriptors: a type has one descriptor. *)
Fixpoint rtype_eqb (T V : rtype) : bool :=
  match T, V with
  | Ty n1 s1, Ty n2 s2 => bool_decide (n1 = n2) && shape_eqb s1 s2
  end
with shape_eqb (a b : shape) : bool :=
  match a, b with
  | sBool, sBool => true
  | sInt, sInt => true
  | sString, sString => true
  | sPtr e1, sPtr e2 => rtype_eqb e1 e2
  | sSlice e1, sSlice e2 => rtype_eqb e1 e2
  | sChan d1 e1, sChan d2 e2 => bool_decide (d1 = d2) && rtype_eqb e1 e2
  | sStruct f1, sStruct f2 => fields_eqb f1 f2
  | _, _ => false
  end
with fields_eqb (f g : fields) : bool :=
  match f, g with
  | no_fields, no_fields => true
  | field n1 t1 f', field n2 t2 g' =>
    String.eqb n1 n2 && rtype_eqb t1 t2 && fields_eqb f' g'
  | _, _ => false
  end.

Definition type_Name (T : rtype) : option string :=
  match T with Ty n _ => n end.

Definition HasName (T : rtype) : bool :=
  match type_Name T with Some _ => true | None => false end.

Definition type_Kind (T : rtype) : Kind :=
  match T with
  | Ty _ sBool => kBool
  | Ty _ sInt => kInt
  | Ty _ sString => kString
  | Ty _ (sPtr _) => kPtr
  | Ty _ (sSlice _) => kSlice
  | Ty _ (sChan _ _) => kChan
  | Ty _ (sStruct _) => kStruct
  end.

Definition type_Elem (T : rtype) : option rtype :=
  match T with
  | Ty _ (sPtr e) | Ty _ (sSlice e) | Ty _ (sChan _ e) => Some e
  | _ => None
  end.

Definition type_ChanDir (T : rtype) : option ChanDir :=
  match T with
  | Ty _ (sChan d _) => Some d
  | _ => None
  end.

Definition type_Fields (T : rtype) : fields :=
  match T with
  | Ty _ (sStruct fs) => fs
  | _ => no_fields
  end.

(** Type.String *)
Fixpoint typeString (T : rtype) : string :=
  match T with
  | Ty (Some n) _ => n
  | Ty None sh =>
    match sh with
    | sBool => "bool"
    | sInt => "int"
    | sString => "string"
    | sPtr e => "*" +:+ typeString e
    | sSlice e => "[]" +:+ typeString e
    | sChan RecvDir e => "<-chan " +:+ typeString e
    | sChan SendDir e => "chan<- " +:+ typeString e
    | sChan BothDir e => "chan " +:+ typeString e
    | sStruct no_fields => "struct {}"
    | sStruct fs => "struct {" +:+ fieldsString fs +:+ "}"
    end
  end
with fieldsString (fs : fields) : string :=
  match fs with
  | no_fields => EmptyString
  | field n t no_fields => " " +:+ n +:+ " " +:+ typeString t +:+ " "
  | field n t rest => " " +:+ n +:+ " " +:+ typeString t +:+ ";" +:+ fieldsString rest
  end.

(** The predeclared types. *)
Definition t_bool : rtype := Ty (Some "bool") sBool.
Definition t_int : rtype := Ty (Some "int") sInt.
Definition t_string : rtype := Ty (Some "string") sString.
Definition t_ptr (e : rtype) : rtype := Ty None (sPtr e).
Definition t_chan (d : ChanDir) (e : rtype) : rtype := Ty None (sChan d e).

(** [haveIdenticalType(T, V, cmpTags)] at [cmpTags = true], the only way
    assignability calls it: identity of the descriptors. *)
Definition haveIdenticalType (T V : rtype) : bool := rtype_eqb T V.

Definition option_rtype_eqb (a b : option rtype) : bool :=
  match a, b with
  | Some x, Some y => haveIdenticalType x y
  | None, None => true
  | _, _ => false
  end.

(** The struct case of [haveIdenticalUnderlyingType]: as many fields,
    with the same names and identical types (the structs of the fragment
    have no tags and no embedded fields). *)
Fixpoint fields_identical (f g : fields) : bool :=
  match f, g with
  | no_fields, no_fields => true
  | field n1 t1 f', field n2 t2 g' =>
    String.eqb n1 n2 && haveIdenticalType t1 t2 && fields_identical f' g'
  | _, _ => false
  end.

Definition haveIdenticalUnderlyingType (T V : rtype) : bool :=
  if rtype_eqb T V then true
  else if negb (bool_decide (type_Kind T = type_Kind V)) then false
  else
    match type_Kind T with
    | kBool | kInt | kString => true
    | kChan =>
      bool_decide (type_ChanDir V = type_ChanDir T)
      && option_rtype_eqb (type_Elem T) (type_Elem V)
    | kPtr | kSlice => option_rtype_eqb (type_Elem T) (type_Elem V)
    | kStruct => fields_identical (type_Fields T) (type_Fields V)
    | kInvalid => false
    end.

(** [x] is a bidirectional channel value, [T] is a channel type, their
    element types are identical and one of the two types is not defined. *)
Definition specialChannelAssignability (T V : rtype) : bool :=
  bool_decide (type_ChanDir V = Some BothDir)
  && (negb (HasName T) || negb (HasName V))
  && option_rtype_eqb (type_Elem T) (type_Elem V).

(** [directlyAssignable(T, V)]: a value of type [V] can be assigned to a
    variable of type [T]. *)
Definition directlyAssignable (T V : rtype) : bool :=
  if rtype_eqb T V then true
  else if (HasName T && HasName V) || negb (bool_decide (type_Kind T = type_Kind V))
  then false
  else if bool_decide (type_Kind T = kChan) && specialChannelAssignability T V
  then true
  else haveIdenticalUnderlyingType T V.

(** [t.AssignableTo(u)] is [directlyAssignable(u, t) || implements(u, t)];
    [implements(u, t)] requires [u] to be an interface type, and the
    fragment has none. *)
Definition AssignableTo (t u : rtype) : bool := directlyAssignable u t.

(** Values and memory.  A pointer is nil or an address; the cell at an
    address holds the representation of the value stored there. *)
Definition loc := positive.

#[warnings="-register-all"]
Inductive payload : Type :=
  | PBool (b : bool)
  | PInt (n : Z)
  | PString (s : string)
  | PNil
  | PAddr (l : loc)
  | PRef (id : nat)
  | PStruct (fields : list payload).

Abbreviation heap := (gmap loc payload).

(** reflect.Value: the zero Value, or a typed value together with the
    address it lives at when it is addressable. *)
Inductive Value : Type :=
  | zeroValue
  | mkValue (typ : rtype) (p : payload) (addr : option loc).

(** A non-nil interface value whose dynamic type is in the fragment. *)
Definition typed : Type := rtype * payload.

Definition reflect_ValueOf (i : option typed) : Value :=
  match i with
  | None => zeroValue
  | Some (t, p) => mkValue t p None
  end.

Definition Value_Kind (v : Value) : Kind :=
  match v with
  | zeroValue => kInvalid
  | mkValue t _ _ => type_Kind t
  end.

Definition Value_Type (v : Value) : result rtype :=
  match v with
  | zeroValue => Panic "reflect: call of reflect.Value.Type on zero Value"
  | mkValue t _ _ => Return t
  end.

(** Value.Elem on a pointer: the zero Value for a nil pointer, otherwise
    the addressable value it points to. *)
Definition Value_Elem (h : heap) (v : Value) : result Value :=
  match v with
  | zeroValue => Panic "reflect: call of reflect.Value.Elem on zero Value"
  | mkValue t p _ =>
    match type_Kind t, type_Elem t with
    | kPtr, Some e =>
      match p with
      | PAddr l => Return (mkValue e (default PNil (h !! l)) (Some l))
      | _ => Return zeroValue
      end
    | _, _ => Panic ("reflect: call of reflect.Value.Elem on " +:+ typeString t +:+ " Value")
    end
  end.

(** Value.Set: [v] must be addressable and [x] assignable to [v]'s type. *)
Definition Value_Set (h : heap) (v x : Value) : result heap :=
  match v, x with
  | mkValue dst _ (Some l), mkValue xt xp _ =>
    if directlyAssignable dst xt then Return (<[l := xp]> h)
    else Panic ("reflect.Set: value of type " +:+ typeString xt
                +:+ " is not assignable to type " +:+ typeString dst)
  | mkValue _ _ None, _ => Panic "reflect: reflect.Value.Set using unaddressable value"
  | _, _ => Panic "reflect: call of reflect.Value.Set on zero Value"
  end.

(** ** any, context and metadata *)

(** The values an [any] holds in this package: nil, an error, or a value
    of one of the types above. *)
Inductive any : Type :=
  | anyNil
  | anyErr (err : error)
  | anyVal (t : rtype) (p : payload).

Abbreviation MD := (gmap string (list string)).

Inductive ctxKey : Type :=
  | contextValueKey          (** the package's private key *)
  | otherKey (n : nat).      (** any other key *)

#[global] Instance ctxKey_eq_dec : EqDecision ctxKey.
Proof. solve_decision. Defined.

(** A context: the chain of [context.WithValue] bindings, innermost
    first, and the metadata that [metadata.FromIncomingContext] and
    [metadata.FromOutgoingContext] return for it (a copy of what the
    context carries, with lower-case keys). *)
Record Context : Type := {
  ctx_values : list (ctxKey * any);
  ctx_incoming : option MD;
  ctx_outgoing : option MD
}.

Definition context_TODO : Context :=
  {| ctx_values := []; ctx_incoming := None; ctx_outgoing := None |}.

Definition context_WithValue (ctx : Context) (k : ctxKey) (v : any) : Context :=
  {| ctx_values := (k, v) :: ctx_values ctx;
     ctx_incoming := ctx_incoming ctx;
     ctx_outgoing := ctx_outgoing ctx |}.

Fixpoint lookup_value (k : ctxKey) (l : list (ctxKey * any)) : any :=
  match l with
  | [] => anyNil
  | (k', v) :: l' => if bool_decide (k' = k) then v else lookup_value k l'
  end.

Definition ctx_Value (ctx : Context) (k : ctxKey) : any :=
  lookup_value k (ctx_values ctx).

Definition metadata_FromIncomingContext (ctx : Context) : option MD :=
  ctx_incoming ctx.

Definition metadata_FromOutgoingContext (ctx : Context) : option MD :=
  ctx_outgoing ctx.

Definition metadata_NewIncomingContext (ctx : Context) (md : MD) : Context :=
  {| ctx_values := ctx_values ctx;
     ctx_incoming := Some md;
     ctx_outgoing := ctx_outgoing ctx |}.

Definition metadata_NewOutgoingContext (ctx : Context) (md : MD) : Context :=
  {| ctx_values := ctx_values ctx;
     ctx_incoming := ctx_incoming ctx;
     ctx_outgoing := Some md |}.

(** [md[k]]: the nil slice for a missing key. *)
Definition md_index (md : MD) (k : string) : list string :=
  default [] (md !! k).

(** MD.Set *)
Definition MD_Set (U : UnicodeTables) (md : MD) (k : string) (vals : list string) : MD :=
  match vals with
  | [] => md
  | _ :: _ => <[strings_ToLower U k := vals]> md
  end.

(** MD.Get *)
Definition MD_Get (U : UnicodeTables) (md : MD) (k : string) : list string :=
  md_index md (strings_ToLower U k).

(** ** Package authorization *)

Definition MetadataName : string := "authorization".

Definition ErrInvalidOptionValue : error := errorString 1 "invalid option value".
Definition ErrUnchecked : error := errorString 2 "authorization metadata is unchecked".
Definition ErrMissing : error := errorString 3 "request has no authorization credentials".
Definition ErrInvalid : error := errorString 4 "authorization credentials are invalid".
Definition ErrType : error := errorString 5 "authorization has the wrong type".
Definition ErrInvalidMethod : error := errorString 6 "invalid authorization method".

(** The error variables a caller can match against with [errors.Is]. *)
Definition sentinels : list error :=
  [ErrInvalidOptionValue; ErrUnchecked; ErrMissing; ErrInvalid; ErrType; ErrInvalidMethod].

(** A validator: the call's context and the credential to the value and
    the error it returns. *)
Definition CredentialValidator : Type := Context -> string -> any * option error.

(** The method table; a nil function is [None]. *)
Record Authorization : Type := {
  methods : gmap string (option CredentialValidator)
}.

(** An option runs on the instance under construction: the instance it
    leaves and the error it returns. *)
Definition Options : Type := Authorization -> Authorization * option error.

(** The pattern after its anchor: group 1 of one or more non-space
    characters, one or more space characters, group 2 of any number of
    characters other than newline. *)
Definition meta_body : regex :=
  re_cat (re_group 1 (re_plus cls_not_space))
    (re_cat (re_plus cls_space) (re_group 2 (re_star cls_dot))).

(** [authorizationMetaRegex]: the pattern is compiled under the flag [m],
    so its anchor is a beginning of line. *)
Definition authorizationMetaRegex : regex := re_cat re_begin_line meta_body.

(** The outcome of validating one call, named as the specification does;
    [outcome_any] is the value that [parseMeta] returns for it. *)
Inductive Outcome : Type :=
  | Missing
  | MalformedHeader
  | InvalidSchemeName (err : error)
  | UnsupportedScheme (scheme : string)
  | ValidatorError (cause : error)
  | Success (value : any).

Definition outcome_any (o : Outcome) : any :=
  match o with
  | Missing => anyErr ErrMissing
  | MalformedHeader =>
    anyErr (fmt_Errorf_w ErrInvalid ": invalid format for authorization metadata")
  | InvalidSchemeName err => anyErr err
  | UnsupportedScheme scheme =>
    anyErr (fmt_Errorf_w ErrInvalid
              (": authorization method " +:+ dquote +:+ scheme +:+ dquote
               +:+ " is not supported"))
  | ValidatorError cause => anyErr cause
  | Success value => value
  end.

Section Package.

Variable U : UnicodeTables.

Definition validateMethod (method : string) : option error :=
  if is_empty method then
    Some (fmt_Errorf_w ErrInvalidMethod ": is empty")
  else if contains_space method then
    Some (fmt_Errorf_w ErrInvalidMethod ": must not contains whitespace")
  else if negb (String.eqb method (strings_ToLower U method)) then
    Some (fmt_Errorf_w ErrInvalidMethod ": must be lowercase")
  else if existsb (fun r => negb (unicode_IsLetter U r) && negb (unicode_IsDigit U r))
            (range_runes method) then
    Some (fmt_Errorf_w ErrInvalidMethod ": must only contains alphanumeric characters")
  else None.

(** The error for a nil function is a fresh [errors.New] value; nothing
    compares it with another error, [0] stands for its identity. *)
Definition WithMethodFunction (method : string) (fn : option CredentialValidator)
    : Options :=
  fun a =>
    match fn with
    | None => (a, Some (errorString 0 "cannot use a nil function"))
    | Some _ =>
      match validateMethod method with
      | Some err => (a, Some err)
      | None => ({| methods := <[method := fn]> (methods a) |}, None)
      end
    end.

Fixpoint apply_options (opts : list Options) (a : Authorization)
    : option Authorization * option error :=
  match opts with
  | [] => (Some a, None)
  | opt :: opts' =>
    match opt a with
    | (_, Some err) =>
      (None, Some (wrapError (Error ErrInvalidOptionValue +:+ " : " +:+ Error err)
                     ErrInvalidOptionValue))
    | (a', None) => apply_options opts' a'
    end
  end.

Definition New (opts : list Options) : option Authorization * option error :=
  apply_options opts {| methods := ∅ |}.

(** The codec's decoding of a header value ([parseMeta], from the match of
    the regular expression to the validation of the scheme name). *)
Definition decode_header (v : string) : Outcome + string * string :=
  match FindStringSubmatch authorizationMetaRegex v with
  | None => inl MalformedHeader
  | Some res =>
    match validateMethod (elem_at res 1) with
    | Some err => inl (InvalidSchemeName err)
    | None => inr (elem_at res 1, elem_at res 2)
    end
  end.

(** [parseMeta] from the header value on. *)
Definition validateHeader (a : Authorization) (ctx : Context) (v : string) : Outcome :=
  match decode_header v with
  | inl o => o
  | inr (scheme, credential) =>
    match methods a !! scheme with
    | Some (Some fn) =>
      match fn ctx credential with
      | (_, Some err) => ValidatorError err
      | (value, None) => Success value
      end
    | _ => UnsupportedScheme scheme
    end
  end.

Definition parseMeta_outcome (a : Authorization) (ctx : Context) : Outcome :=
  match metadata_FromIncomingContext ctx with
  | None => Missing
  | Some md =>
    match md_index md MetadataName with
    | [] => Missing
    | v :: _ => validateHeader a ctx v
    end
  end.

Definition parseMeta (a : Authorization) (ctx : Context) : any :=
  outcome_any (parseMeta_outcome a ctx).

Definition GetFromContext (h : heap) (ctx : Context) (dest : option typed)
    : result (heap * option error) :=
  let ddest := reflect_ValueOf dest in
  if negb (bool_decide (Value_Kind ddest = kPtr)) then
    Return (h, Some (fmt_Errorf_w ErrType ": dest must be a pointer"))
  else
    match ctx_Value ctx contextValueKey with
    | anyNil => Return (h, Some ErrUnchecked)
    | anyErr err =>
      if errors_Is err ErrMissing || errors_Is err ErrInvalid then
        Return (h, Some err)
      else
        Return (h, Some (wrapError (Error ErrInvalid +:+ ": " +:+ Error err) ErrInvalid))
    | anyVal t p =>
      let from := mkValue t p None in
      slot ← Value_Elem h ddest;
      dt ← Value_Type slot;
      ft ← Value_Type from;
      if negb (AssignableTo dt ft) then
        Return (h, Some (wrapError
                           (Error ErrType +:+ ": expecting a " +:+ typeString dt
                            +:+ " but got value is a " +:+ typeString ft)
                           ErrType))
      else
        h' ← Value_Set h slot from;
        Return (h', None)
    end.

Definition AppendToOutgoingContext (ctx : Context) (method credential : string)
    : option Context * option error :=
  match validateMethod method with
  | Some err => (None, Some err)
  | None =>
    let val := strings_ToLower U method +:+ " " +:+ credential in
    let md := match metadata_FromOutgoingContext ctx with
              | Some md => md
              | None => ∅
              end in
    let md := MD_Set U md MetadataName [val] in
    (Some (metadata_NewOutgoingContext ctx md), None)
  end.

(** A server stream: the transport's own stream, or [utils.ServerStream],
    which embeds a stream and answers [Context] with its [Ctx] field. *)
Inductive ServerStream : Type :=
  | transportStream (id : nat) (ctx : Context)
  | utils_ServerStream (inner : ServerStream) (Ctx : Context).

Definition stream_Context (s : ServerStream) : Context :=
  match s with
  | transportStream _ ctx => ctx
  | utils_ServerStream _ Ctx => Ctx
  end.

(** The interceptors.  [Req], [Resp], [Info] and [Srv] stand for the
    request, for what a handler returns, for the call information and for
    the service implementation. *)
Definition UnaryInterceptor {Req Resp Info : Type} (a : Authorization)
    (ctx : Context) (req : Req) (_ : Info) (handler : Context -> Req -> Resp) : Resp :=
  handler (context_WithValue ctx contextValueKey (parseMeta a ctx)) req.

Definition StreamInterceptor {Srv Resp Info : Type} (a : Authorization)
    (srv : Srv) (stream : ServerStream) (_ : Info)
    (handler : Srv -> ServerStream -> Resp) : Resp :=
  let ns :=
    utils_ServerStream stream
      (context_WithValue (stream_Context stream) contextValueKey
         (parseMeta a (stream_Context stream))) in
  handler srv ns.

End Package.

(** * Auxiliary notions

    What the statements and proofs below speak of: positions in a text,
    and the direct reading of [authorizationMetaRegex]. *)

(** The byte before the position reached after reading [t]. *)
Fixpoint prev_after (prev : option ascii) (t : string) : option ascii :=
  match t with
  | EmptyString => prev
  | String c t' => prev_after (Some c) t'
  end.

(** A position at which [^] matches under the flag [m]. *)
Definition line_start (prev : option ascii) : bool :=
  match prev with
  | None => true
  | Some c => is_newline c
  end.

Definition not_space (c : ascii) : bool := negb (perl_space c).

Definition high_byte (c : ascii) : bool := (128 <=? byte_val c)%Z.

(** What makes a credential differ from its decoding. *)
Definition starts_with_space (c : string) : bool :=
  match c with
  | EmptyString => false
  | String x _ => perl_space x
  end.

Definition has_newline (c : string) : bool :=
  negb (string_forall (in_class cls_dot) c).

(** The pattern as the specification writes it, without the flag [m]:
    anchored at the beginning of the text. *)
Definition anchoredPattern : regex := re_cat re_begin_text meta_body.

(** The match of the pattern's body at one position. *)
Definition body_here (s : string) : option captures :=
  let r1 := drop_while (in_class cls_not_space) s in
  if is_empty (take_while (in_class cls_not_space) s) then None
  else if is_empty r1 then None
  else
    let r2 := drop_while (in_class cls_space) r1 in
    let r3 := drop_while (in_class cls_dot) r2 in
    Some [(0%nat, consumed s r3); (2%nat, consumed r2 r3); (1%nat, consumed s r1)].

(** The match of [authorizationMetaRegex] at one position, and the
    leftmost one. *)
Definition match_here (prev : option ascii) (s : string) : option captures :=
  if line_start prev then body_here s else None.

Fixpoint first_match (prev : option ascii) (s : string) : option captures :=
  match match_here prev s with
  | Some cs => Some cs
  | None =>
    match s with
    | EmptyString => None
    | String c s' => first_match (Some c) s'
    end
  end.

(** The values of the authorization key in the outgoing metadata. *)
Definition outgoing_header (ctx : Context) : list string :=
  match metadata_FromOutgoingContext ctx with
  | Some md => md_index md MetadataName
  | None => []
  end.

(** [s] has a line that begins with a token followed by a space
    character: [pre] ends where that line begins. *)
Definition token_line_from (prev : option ascii) (s : string) : Prop :=
  exists pre tok w rest,
    s = pre +:+ tok +:+ String w rest
    /\ line_start (prev_after prev pre) = true
    /\ is_empty tok = false
    /\ string_forall not_space tok = true
    /\ perl_space w = true.

Definition token_line (s : string) : Prop := token_line_from None s.

(** The context an interceptor hands to the handler. *)
Definition intercepted (U : UnicodeTables) (a : Authorization) (ctx : Context) : Context :=
  context_WithValue ctx contextValueKey (parseMeta U a ctx).

(** The error of a call that returned one. *)
Definition result_error (r : result (heap * option error)) : option error :=
  match r with
  | Return (_, Some e) => Some e
  | _ => None
  end.

(** The package's error variables that [errors.Is] finds in [e]. *)
Definition error_kinds (e : error) : list error := filter (fun t => errors_Is e t = true) sentinels.

(** Sample data: a registry with one scheme, calls carrying one header
    value, a string slot and pointers to it. *)
Definition sample_validator : CredentialValidator :=
  fun _ credential =>
    if String.eqb credential "bar" then (anyVal t_string (PString "ok"), None)
    else (anyNil, Some (errorString 7 "boo")).

Definition sample_auth : Authorization :=
  {| methods := {[ "foo" := Some sample_validator ]} |}.

Definition incoming (v : string) : Context :=
  metadata_NewIncomingContext context_TODO {[ MetadataName := [v] ]}.

Definition sample_heap : heap := {[ 1%positive := PString EmptyString ]}.

Definition string_ptr : option typed := Some (t_ptr t_string, PAddr 1%positive).

Definition newline : string := String (ascii_of_nat 10) EmptyString.

(** A validator that answers with a receive-only channel, and a slot for
    a bidirectional one. *)
Definition chan_validator : CredentialValidator :=
  fun _ _ => (anyVal (t_chan RecvDir t_int) (PRef 0), None).

Definition chan_auth : Authorization :=
  {| methods := {[ "foo" := Some chan_validator ]} |}.

Definition chan_heap : heap := {[ 1%positive := PNil ]}.

Definition chan_ptr : option typed := Some (t_ptr (t_chan BothDir t_int), PAddr 1%positive).

(** A validator that succeeds with a nil value. *)
Definition nil_validator : CredentialValidator := fun _ _ => (anyNil, None).

Definition nil_auth : Authorization :=
  {| methods := {[ "foo" := Some nil_validator ]} |}.

Definition incoming_twice (v w : string) : Context :=
  metadata_NewIncomingContext context_TODO {[ MetadataName := [v; w] ]}.

(** What [validateMethod] answers for a name that is not lowercase and
    for one that holds a space. *)
Definition not_lowercase : error := fmt_Errorf_w ErrInvalidMethod ": must be lowercase".
Definition has_whitespace : error :=
  fmt_Errorf_w ErrInvalidMethod ": must not contains whitespace".

(** Tables that know the CJK unified ideographs, which are letters, and a
    scheme name written with two of them (U+6191 and U+64DA), as in the
    package's tests. *)
Definition cjk_tables : UnicodeTables :=
  {| Letter_excludingLatin := fun r => in_range 19968 40959 r;
     Digit_excludingLatin := fun _ => false;
     To_LowerCase := fun r => r |}.

Definition cjk_name : string :=
  String (byte_of 230) (String (byte_of 134) (String (byte_of 145)
    (String (byte_of 230) (String (byte_of 147) (String (byte_of 154) EmptyString))))).

(** * Further notions

    ASCII names, registrations, and what a credential keeps of itself
    through the header. *)

(** Bytes below [RuneSelf], and the bytes of lowercase letters and digits. *)
Definition is_ascii_byte (c : ascii) : bool := (byte_val c <? 128)%Z.

Definition lower_alnum (c : ascii) : bool :=
  in_range 97 122 (byte_val c) || in_range 48 57 (byte_val c).

Fixpoint string_bytes (s : string) : list Z :=
  match s with
  | EmptyString => []
  | String c s' => byte_val c :: string_bytes s'
  end.

Fixpoint string_map (f : ascii -> ascii) (s : string) : string :=
  match s with
  | EmptyString => EmptyString
  | String c s' => String (f c) (string_map f s')
  end.

Definition lower_byte (c : ascii) : ascii :=
  if in_range 65 90 (byte_val c) then byte_of (byte_val c + 32) else c.


(** Registrations: a scheme name and the function given for it, and the
    options that [WithMethodFunction] makes of them, in order. *)
Definition register_all (U : UnicodeTables)
    (regs : list (string * option CredentialValidator)) : list Options :=
  map (fun r => WithMethodFunction U (fst r) (snd r)) regs.

(** The function of the last registration of [s], if there is one. *)
Fixpoint last_registered (s : string)
    (regs : list (string * option CredentialValidator))
    : option (option CredentialValidator) :=
  match regs with
  | [] => None
  | (n, f) :: regs' =>
    match last_registered s regs' with
    | Some v => Some v
    | None => if String.eqb n s then Some f else None
    end
  end.

(** A registration that [WithMethodFunction] accepts. *)
Definition registration_ok (U : UnicodeTables)
    (r : string * option CredentialValidator) : Prop :=
  validateMethod U (fst r) = None /\ snd r <> None.

(** The values of a key in the outgoing metadata. *)
Definition outgoing_values (ctx : Context) (k : string) : list string :=
  match metadata_FromOutgoingContext ctx with
  | Some md => md_index md k
  | None => []
  end.

(** What decoding keeps of a credential: the space characters it begins
    with are dropped, and it is cut before its first newline. *)
Definition kept_credential (c : string) : string :=
  take_while (in_class cls_dot) (drop_while (in_class cls_space) c).

(** More sample data: a space and two tabs, a call whose scheme is not
    lowercase, and a validator that fails with [ErrInvalidMethod]. *)
Definition blanks : string :=
  String " " (String (ascii_of_nat 9) (String (ascii_of_nat 9) EmptyString)).

Definition foreign_validator : CredentialValidator :=
  fun _ _ => (anyNil, Some ErrInvalidMethod).

Definition foreign_auth : Authorization :=
  {| methods := {[ "foo" := Some foreign_validator ]} |}.

(** * Properties *)

(** ** Strings *)

Lemma app_cons c (a b : string) : String c a +:+ b = String c (a +:+ b).
Proof. reflexivity. Qed.

Lemma length_app (a b : string) :
  String.length (a +:+ b) = (String.length a + String.length b)%nat.
Proof.
  induction a as [|c a IH]; [reflexivity|].
  rewrite app_cons. simpl. now rewrite IH.
Qed.

Lemma string_take_app (a t : string) : string_take (String.length a) (a +:+ t) = a.
Proof.
  induction a as [|c a IH]; [now destruct t|].
  rewrite app_cons. simpl. now rewrite IH.
Qed.

Lemma consumed_app (a t : string) : consumed (a +:+ t) t = a.
Proof.
  unfold consumed. rewrite length_app.
  replace (String.length a + String.length t - String.length t)%nat
    with (String.length a) by lia.
  apply string_take_app.
Qed.

Lemma take_drop_while (p : ascii -> bool) (s : string) :
  take_while p s +:+ drop_while p s = s.
Proof.
  induction s as [|c s IH]; simpl; [reflexivity|].
  destruct (p c); [rewrite app_cons; now rewrite IH | reflexivity].
Qed.

Lemma consumed_drop_while (p : ascii -> bool) (s : string) :
  consumed s (drop_while p s) = take_while p s.
Proof.
  transitivity (consumed (take_while p s +:+ drop_while p s) (drop_while p s)).
  - now rewrite take_drop_while.
  - apply consumed_app.
Qed.

Lemma drop_while_head (p : ascii -> bool) (s : string) c t :
  drop_while p s = String c t -> p c = false.
Proof.
  induction s as [|d s IH]; simpl; [discriminate|].
  destruct (p d) eqn:E; [assumption|]. intros [= -> _]. exact E.
Qed.

Lemma take_while_all (p : ascii -> bool) (a : string) c r :
  string_forall p a = true -> p c = false ->
  take_while p (a +:+ String c r) = a /\ drop_while p (a +:+ String c r) = String c r.
Proof.
  intros Ha Hc. induction a as [|d a IH].
  - simpl. now rewrite Hc.
  - simpl in Ha. apply andb_true_iff in Ha as [Hd Ha].
    rewrite app_cons. simpl. rewrite Hd.
    destruct (IH Ha) as [-> ->]. now split.
Qed.

(** *** Greedy repetition

    When what follows cannot start with a byte of the class, the
    repetition never gives a byte back; when what follows succeeds after
    the longest run, that is the match. *)

Section Star.

Context {A : Type} (k : cclass) (cont : option ascii -> string -> option A).

Lemma star_class_commit :
  (forall p c t, in_class k c = true -> cont p (String c t) = None) ->
  forall s prev,
    star_class k prev s cont
    = cont (prev_after prev (take_while (in_class k) s)) (drop_while (in_class k) s).
Proof.
  intros Hfail. induction s as [|c s IH]; intros prev; simpl; [reflexivity|].
  destruct (in_class k c) eqn:E; simpl; [|reflexivity].
  rewrite IH. rewrite (Hfail prev c s E).
  now destruct (cont _ _).
Qed.

Lemma star_class_greedy s prev r :
  cont (prev_after prev (take_while (in_class k) s)) (drop_while (in_class k) s) = Some r ->
  star_class k prev s cont = Some r.
Proof.
  revert prev. induction s as [|c s IH]; intros prev; simpl; [trivial|].
  destruct (in_class k c) eqn:E; simpl; [|trivial].
  intros H. now rewrite (IH _ H).
Qed.

End Star.

Lemma re_match_body s :
  re_match meta_body None s [] (fun _ t cs => Some ((O, consumed s t) :: cs))
  = body_here s.
Proof.
  unfold body_here, meta_body. cbn [re_match].
  destruct s as [|c s']; [reflexivity|].
  cbn [take_while drop_while].
  destruct (in_class cls_not_space c) eqn:Hc; [|reflexivity].
  cbn [is_empty].
  rewrite star_class_commit.
  2:{ intros p d t Hd. cbn [re_match]. cbn in Hd.
      cbn [in_class]. now destruct (perl_space d). }
  cbn [re_match].
  destruct (drop_while (in_class cls_not_space) s') as [|d t] eqn:Hr1; [reflexivity|].
  pose proof (drop_while_head _ _ _ _ Hr1) as Hd. cbn in Hd.
  apply negb_false_iff in Hd. cbn [in_class]. rewrite Hd. cbn [is_empty].
  change (drop_while (in_class cls_space) (String d t))
    with (if perl_space d then drop_while (in_class cls_space) t else String d t).
  rewrite Hd.
  erewrite star_class_greedy; [reflexivity|].
  erewrite star_class_greedy; reflexivity.
Qed.

(** The body does not look at the byte before the position. *)
Lemma re_match_body_prev prev s :
  re_match meta_body prev s [] (fun _ t cs => Some ((O, consumed s t) :: cs))
  = re_match meta_body None s [] (fun _ t cs => Some ((O, consumed s t) :: cs)).
Proof.
  unfold meta_body. cbn [re_match]. reflexivity.
Qed.

Lemma re_match_meta prev s :
  re_match authorizationMetaRegex prev s []
    (fun _ t cs => Some ((O, consumed s t) :: cs))
  = match_here prev s.
Proof.
  unfold authorizationMetaRegex, match_here.
  change (re_match (re_cat re_begin_line meta_body) prev s []
            (fun _ t cs => Some ((O, consumed s t) :: cs)))
    with (match prev with
          | None => re_match meta_body prev s [] (fun _ t cs => Some ((O, consumed s t) :: cs))
          | Some c =>
            if is_newline c
            then re_match meta_body prev s [] (fun _ t cs => Some ((O, consumed s t) :: cs))
            else None
          end).
  destruct prev as [c|]; cbn [line_start].
  - destruct (is_newline c); [|reflexivity].
    rewrite re_match_body_prev. apply re_match_body.
  - apply re_match_body.
Qed.

Lemma find_from_meta s : forall prev,
  find_from authorizationMetaRegex prev s = first_match prev s.
Proof.
  induction s as [|c s IH]; intros prev; cbn [find_from first_match];
    rewrite re_match_meta; destruct (match_here prev _); auto.
Qed.

Lemma FindStringSubmatch_meta s :
  FindStringSubmatch authorizationMetaRegex s
  = match first_match None s with
    | None => None
    | Some cs => Some [capture 0 cs; capture 1 cs; capture 2 cs]
    end.
Proof.
  unfold FindStringSubmatch. rewrite find_from_meta.
  now destruct (first_match None s).
Qed.

Lemma in_range_lo lo hi b : in_range lo hi b = true -> (lo <= b)%Z.
Proof. unfold in_range. intros H. apply andb_true_iff in H as [H _]. lia. Qed.

Lemma acceptRange_lo b0 sz lo hi :
  acceptRange b0 = Some (sz, lo, hi) -> (128 <= lo)%Z.
Proof.
  unfold acceptRange.
  repeat match goal with
         | |- context [if ?b then _ else _] => destruct b
         end; intros [= <- <- <-] || discriminate; lia.
Qed.

Lemma decode_step c0 s1 :
  exists skipped rest,
    s1 = skipped +:+ rest
    /\ string_drop (snd (DecodeRuneInString (String c0 s1))) (String c0 s1) = rest
    /\ string_forall high_byte skipped = true
    /\ ((byte_val c0 < 128)%Z -> fst (DecodeRuneInString (String c0 s1)) = byte_val c0).
Proof.
  assert (Hone : forall r : rune, exists skipped rest,
    s1 = skipped +:+ rest
    /\ string_drop (snd (r, 1%nat)) (String c0 s1) = rest
    /\ string_forall high_byte skipped = true).
  { intros r. exists EmptyString, s1. now repeat split. }
  cbn [DecodeRuneInString]. cbv zeta.
  destruct (byte_val c0 <? RuneSelf)%Z eqn:Hb0.
  { exists EmptyString, s1. now repeat split. }
  assert (Hhi : (byte_val c0 < 128)%Z -> False) by (unfold RuneSelf in Hb0; lia).
  assert (Hfin : forall r : rune, exists skipped rest,
    s1 = skipped +:+ rest
    /\ string_drop (snd (r, 1%nat)) (String c0 s1) = rest
    /\ string_forall high_byte skipped = true
    /\ ((byte_val c0 < 128)%Z -> fst (r, 1%nat) = byte_val c0)).
  { intros r. destruct (Hone r) as (sk & rest & ? & ? & ?).
    exists sk, rest. repeat split; auto. intros; exfalso; auto. }
  destruct (acceptRange (byte_val c0)) as [[[sz lo] hi]|] eqn:Har; [|apply Hfin].
  apply acceptRange_lo in Har.
  destruct s1 as [|c1 s2]; [apply Hfin|].
  destruct (in_range lo hi (byte_val c1)) eqn:H1; cbn [negb]; [|apply Hfin].
  apply in_range_lo in H1.
  assert (Hc1 : high_byte c1 = true) by (unfold high_byte; lia).
  destruct (sz <=? 2)%nat.
  { exists (String c1 EmptyString), s2. cbn. rewrite Hc1.
    repeat split; auto. intros; exfalso; auto. }
  destruct s2 as [|c2 s3]; [apply Hfin|].
  destruct (in_range 128 191 (byte_val c2)) eqn:H2; cbn [negb]; [|apply Hfin].
  apply in_range_lo in H2.
  assert (Hc2 : high_byte c2 = true) by (unfold high_byte; lia).
  destruct (sz <=? 3)%nat.
  { exists (String c1 (String c2 EmptyString)), s3. cbn. rewrite Hc1, Hc2.
    repeat split; auto. intros; exfalso; auto. }
  destruct s3 as [|c3 s4]; [apply Hfin|].
  destruct (in_range 128 191 (byte_val c3)) eqn:H3; cbn [negb]; [|apply Hfin].
  apply in_range_lo in H3.
  assert (Hc3 : high_byte c3 = true) by (unfold high_byte; lia).
  exists (String c1 (String c2 (String c3 EmptyString))), s4. cbn.
  rewrite Hc1, Hc2, Hc3. repeat split; auto. intros; exfalso; auto.
Qed.

Lemma perl_space_low c : perl_space c = true -> (byte_val c < 128)%Z.
Proof. unfold perl_space. cbv zeta. lia. Qed.

Lemma string_forall_app p (a b : string) :
  string_forall p (a +:+ b) = string_forall p a && string_forall p b.
Proof.
  induction a as [|c a IH]; [reflexivity|].
  rewrite app_cons. simpl. now rewrite IH, andb_assoc.
Qed.

Lemma string_forall_impl (p q : ascii -> bool) s :
  (forall c, p c = true -> q c = true) ->
  string_forall p s = true -> string_forall q s = true.
Proof.
  intros Hpq. induction s as [|c s IH]; simpl; [trivial|].
  intros H. apply andb_true_iff in H as [Hc Hs].
  now rewrite (Hpq _ Hc), IH.
Qed.

(** A string all of whose runes pass a test that the ASCII space
    characters fail holds none of these bytes: a space byte is never part
    of a longer encoding. *)

Section Runes.

Variable bad : rune -> bool.
Hypothesis bad_space : forall c, perl_space c = true -> bad (byte_val c) = true.

Lemma range_runes_from_no_space n : forall s,
  (String.length s <= n)%nat ->
  existsb bad (range_runes_from n s) = false ->
  string_forall not_space s = true.
Proof.
  induction n as [|n IH]; intros s Hlen Hex.
  - destruct s; [reflexivity | simpl in Hlen; lia].
  - destruct s as [|c0 s1]; [reflexivity|].
    cbn [range_runes_from] in Hex.
    destruct (decode_step c0 s1) as (sk & rest & Hs1 & Hdrop & Hsk & Hlow).
    destruct (DecodeRuneInString (String c0 s1)) as [r w] eqn:Hdec.
    cbn [fst snd] in *. cbn [existsb] in Hex.
    apply orb_false_iff in Hex as [Hr Hrest].
    rewrite Hdrop in Hrest. subst s1.
    cbn [string_forall]. rewrite string_forall_app.
    assert (Hc0 : not_space c0 = true).
    { unfold not_space. destruct (perl_space c0) eqn:Hsp; [|reflexivity].
      pose proof (perl_space_low _ Hsp) as Hl.
      rewrite (Hlow Hl) in Hr. rewrite (bad_space _ Hsp) in Hr. discriminate. }
    rewrite Hc0.
    rewrite (string_forall_impl high_byte not_space sk); [|  | exact Hsk].
    2:{ intros c Hc. unfold not_space. destruct (perl_space c) eqn:Hsp; [|reflexivity].
        apply perl_space_low in Hsp. unfold high_byte in Hc. lia. }
    rewrite IH; [reflexivity | | exact Hrest].
    simpl in Hlen. rewrite length_app in Hlen. lia.
Qed.

End Runes.

(** The loop of [range] ends: every step consumes at least one byte, and
    any number of steps from the length of the string on gives the same
    runes. *)
Lemma range_runes_from_enough n : forall m s,
  (String.length s <= n)%nat -> (String.length s <= m)%nat ->
  range_runes_from n s = range_runes_from m s.
Proof.
  induction n as [|n IH]; intros m s Hn Hm.
  - destruct s; [now destruct m | simpl in Hn; lia].
  - destruct s as [|c0 s1]; [now destruct m|].
    destruct m as [|m]; [simpl in Hm; lia|].
    cbn [range_runes_from].
    destruct (decode_step c0 s1) as (sk & rest & Hs1 & Hdrop & _ & _).
    destruct (DecodeRuneInString (String c0 s1)) as [r w].
    cbn [snd] in Hdrop. rewrite Hdrop. f_equal.
    simpl in Hn, Hm. rewrite Hs1, length_app in Hn, Hm. apply IH; lia.
Qed.

Lemma range_runes_enough n s :
  (String.length s <= n)%nat -> range_runes_from n s = range_runes s.
Proof. intros H. now apply range_runes_from_enough. Qed.

(** ** Errors *)

Lemma errors_Is_refl e : errors_Is e e = true.
Proof. destruct e; simpl; rewrite bool_decide_eq_true_2; auto. Qed.

Lemma errors_Is_wrap msg e t : errors_Is e t = true -> errors_Is (wrapError msg e) t = true.
Proof. intros H. simpl. rewrite H. apply orb_true_r. Qed.

Lemma errors_Is_Errorf e rest : errors_Is (fmt_Errorf_w e rest) e = true.
Proof. apply errors_Is_wrap, errors_Is_refl. Qed.

Lemma take_while_id p s : string_forall p s = true -> take_while p s = s.
Proof.
  induction s as [|c s IH]; simpl; [trivial|].
  intros H. apply andb_true_iff in H as [-> Hs]. now rewrite IH.
Qed.

Lemma drop_while_id s : starts_with_space s = false -> drop_while (in_class cls_space) s = s.
Proof. destruct s as [|c s]; simpl; [trivial|]. now intros ->. Qed.

(** ** Metadata *)

Lemma md_index_Some (md : MD) k l : md !! k = Some l -> md_index md k = l.
Proof. unfold md_index. now intros ->. Qed.

Lemma md_index_None (md : MD) k : md !! k = None -> md_index md k = [].
Proof. unfold md_index. now intros ->. Qed.

(** ** The pattern, read directly *)

Lemma string_forall_take_while p s : string_forall p (take_while p s) = true.
Proof.
  induction s as [|c s IH]; simpl; [reflexivity|].
  destruct (p c) eqn:E; simpl; [now rewrite E|reflexivity].
Qed.

Lemma is_empty_false s : is_empty s = false <-> s <> EmptyString.
Proof. destruct s; simpl; split; congruence. Qed.

Lemma body_here_Some s :
  body_here s <> None <->
  exists tok w rest,
    s = tok +:+ String w rest
    /\ is_empty tok = false
    /\ string_forall not_space tok = true
    /\ perl_space w = true.
Proof.
  unfold body_here. cbv zeta. split.
  - destruct (is_empty (take_while _ s)) eqn:Htok; [congruence|].
    destruct (drop_while (in_class cls_not_space) s) as [|w rest] eqn:Hrest;
      cbn [is_empty]; [congruence|]. intros _.
    exists (take_while (in_class cls_not_space) s), w, rest.
    rewrite <- Hrest, take_drop_while. repeat split; auto.
    + apply string_forall_take_while.
    + apply drop_while_head in Hrest. cbn in Hrest. now apply negb_false_iff in Hrest.
  - intros (tok & w & rest & -> & Hne & Hns & Hw).
    assert (Hw' : in_class cls_not_space w = false) by (cbn; now rewrite Hw).
    destruct (take_while_all (in_class cls_not_space) tok w rest Hns Hw') as [-> ->].
    rewrite Hne. cbn [is_empty]. discriminate.
Qed.

Lemma token_line_from_nil prev : ~ token_line_from prev EmptyString.
Proof.
  intros (pre & tok & w & rest & H & _).
  destruct pre; [destruct tok|]; discriminate.
Qed.

Lemma token_line_from_cons prev c s :
  token_line_from prev (String c s) <->
  match_here prev (String c s) <> None \/ token_line_from (Some c) s.
Proof.
  unfold match_here. split.
  - intros (pre & tok & w & rest & Heq & Hls & Hne & Hns & Hw).
    destruct pre as [|d pre].
    + left. cbn [prev_after] in Hls. rewrite Hls. apply body_here_Some.
      exists tok, w, rest. now rewrite Heq.
    + right. rewrite app_cons in Heq. injection Heq as -> ->.
      exists pre, tok, w, rest. now repeat split.
  - intros [H | (pre & tok & w & rest & -> & Hls & Hne & Hns & Hw)].
    + destruct (line_start prev) eqn:Hls; [|congruence].
      apply body_here_Some in H as (tok & w & rest & Heq & Hne & Hns & Hw).
      exists EmptyString, tok, w, rest. now repeat split.
    + exists (String c pre), tok, w, rest. now repeat split.
Qed.

Lemma first_match_None s : forall prev,
  first_match prev s = None <-> ~ token_line_from prev s.
Proof.
  induction s as [|c s IH]; intros prev.
  - split; [intros _; apply token_line_from_nil|]. intros _.
    cbn [first_match]. unfold match_here, body_here. now destruct (line_start prev).
  - rewrite token_line_from_cons. cbn [first_match].
    destruct (match_here prev (String c s)) eqn:Hm.
    + split; [discriminate|]. intros H. exfalso. apply H. left. discriminate.
    + rewrite IH. split.
      * intros H [Hc | Hc]; [congruence | contradiction].
      * intros H Hc. apply H. now right.
Qed.

Lemma find_from_anchored_after s : forall c,
  find_from anchoredPattern (Some c) s = None.
Proof.
  induction s as [|d s IH]; intros c0; unfold anchoredPattern;
    cbn [find_from re_match]; [reflexivity | apply IH].
Qed.

Lemma FindStringSubmatch_anchored s :
  FindStringSubmatch anchoredPattern s <> None -> body_here s <> None.
Proof.
  unfold FindStringSubmatch.
  destruct (find_from anchoredPattern None s) as [cs|] eqn:Hf; [|congruence].
  intros _ Hb.
  destruct s as [|d s]; cbn [find_from] in Hf; unfold anchoredPattern in Hf;
    cbn [re_match] in Hf; rewrite re_match_body, Hb in Hf; [discriminate|].
  fold anchoredPattern in Hf. rewrite find_from_anchored_after in Hf. discriminate.
Qed.

(** ** Types and assignability *)

Lemma rtype_eqb_spec_all :
  (forall T V, rtype_eqb T V = true <-> T = V)
  /\ (forall a b, shape_eqb a b = true <-> a = b)
  /\ (forall f g, fields_eqb f g = true <-> f = g).
Proof.
  apply rtype_mutind.
  - intros n sh IH [n' sh']. cbn [rtype_eqb]. rewrite andb_true_iff, IH, bool_decide_eq_true.
    split; [intros [-> ->]; reflexivity | intros [= -> ->]; now split].
  - intros []; cbn; split; congruence.
  - intros []; cbn; split; congruence.
  - intros []; cbn; split; congruence.
  - intros e IH []; cbn [shape_eqb]; try (split; congruence).
    rewrite IH. split; congruence.
  - intros e IH []; cbn [shape_eqb]; try (split; congruence).
    rewrite IH. split; congruence.
  - intros d e IH []; cbn [shape_eqb]; try (split; congruence).
    rewrite andb_true_iff, IH, bool_decide_eq_true.
    split; [intros [-> ->]; reflexivity | intros [= -> ->]; now split].
  - intros fs IH []; cbn [shape_eqb]; try (split; congruence).
    rewrite IH. split; congruence.
  - intros []; cbn; split; congruence.
  - intros n t IHt rest IHr []; cbn [fields_eqb]; [split; congruence|].
    rewrite !andb_true_iff, IHt, IHr, String.eqb_eq.
    split; [intros [[-> ->] ->]; reflexivity | intros [= -> -> ->]; now repeat split].
Qed.

Lemma rtype_eqb_eq T V : rtype_eqb T V = true <-> T = V.
Proof. apply rtype_eqb_spec_all. Qed.

Lemma rtype_eqb_sym T V : rtype_eqb T V = rtype_eqb V T.
Proof.
  destruct (rtype_eqb T V) eqn:H1, (rtype_eqb V T) eqn:H2; try reflexivity.
  - apply rtype_eqb_eq in H1. subst. 
    assert (rtype_eqb V V = true) by now apply rtype_eqb_eq. congruence.
  - apply rtype_eqb_eq in H2. subst.
    assert (rtype_eqb T T = true) by now apply rtype_eqb_eq. congruence.
Qed.

Lemma option_rtype_eqb_sym a b : option_rtype_eqb a b = option_rtype_eqb b a.
Proof.
  destruct a, b; cbn; try reflexivity. unfold haveIdenticalType. apply rtype_eqb_sym.
Qed.

Lemma fields_identical_sym f : forall g, fields_identical f g = fields_identical g f.
Proof.
  induction f as [|n t f IH]; intros [|n' t' g]; cbn; try reflexivity.
  unfold haveIdenticalType. now rewrite String.eqb_sym, rtype_eqb_sym, IH.
Qed.

Lemma bool_decide_sym {A : Type} `{EqDecision A} (x y : A) :
  bool_decide (x = y) = bool_decide (y = x).
Proof. apply bool_decide_ext. split; congruence. Qed.

Lemma haveIdenticalUnderlyingType_sym T V :
  haveIdenticalUnderlyingType T V = haveIdenticalUnderlyingType V T.
Proof.
  unfold haveIdenticalUnderlyingType. rewrite (rtype_eqb_sym V T).
  destruct (rtype_eqb T V); [reflexivity|].
  rewrite (bool_decide_sym (type_Kind V)).
  destruct (bool_decide (type_Kind T = type_Kind V)) eqn:Hk; cbn [negb]; [|reflexivity].
  apply bool_decide_eq_true in Hk. rewrite <- Hk.
  rewrite (option_rtype_eqb_sym (type_Elem V)), (fields_identical_sym (type_Fields V)).
  now rewrite (bool_decide_sym (type_ChanDir T)).
Qed.

(** Assignability is symmetric but for channels. *)
Lemma directlyAssignable_converse T V :
  directlyAssignable T V = true ->
  directlyAssignable V T = true
  \/ (bool_decide (type_Kind T = kChan) && specialChannelAssignability T V = true).
Proof.
  unfold directlyAssignable. rewrite (rtype_eqb_sym V T).
  destruct (rtype_eqb T V); [now left|].
  rewrite (andb_comm (HasName V)), (bool_decide_sym (type_Kind V)).
  destruct (HasName T && HasName V || negb (bool_decide (type_Kind T = type_Kind V)));
    [discriminate|].
  destruct (bool_decide (type_Kind T = kChan) && specialChannelAssignability T V);
    [now right|].
  intros H. left. rewrite haveIdenticalUnderlyingType_sym, H.
  now destruct (_ && _).
Qed.

Lemma type_ChanDir_kind T d : type_ChanDir T = Some d -> type_Kind T = kChan.
Proof. destruct T as [n []]; cbn; congruence. Qed.

Lemma special_channel_passes T V :
  bool_decide (type_Kind T = kChan) && specialChannelAssignability T V = true ->
  directlyAssignable T V = true.
Proof.
  intros H. unfold directlyAssignable. rewrite H.
  destruct (rtype_eqb T V); [reflexivity|].
  apply andb_true_iff in H as [Hk Hs]. apply bool_decide_eq_true in Hk.
  unfold specialChannelAssignability in Hs.
  apply andb_true_iff in Hs as [Hs _]. apply andb_true_iff in Hs as [Hd Hn].
  apply bool_decide_eq_true, type_ChanDir_kind in Hd.
  rewrite Hk, Hd, bool_decide_eq_true_2 by reflexivity. cbn [negb].
  rewrite orb_false_r.
  destruct (HasName T), (HasName V); cbn in *; congruence.
Qed.

(** ** Typed retrieval *)

Lemma type_Elem_ptr T : type_Kind T = kPtr -> exists e, type_Elem T = Some e.
Proof. destruct T as [n []]; try discriminate. intros _. now eexists. Qed.

Lemma GetFromContext_not_pointer h ctx dest :
  Value_Kind (reflect_ValueOf dest) <> kPtr ->
  GetFromContext h ctx dest
  = Return (h, Some (fmt_Errorf_w ErrType ": dest must be a pointer")).
Proof.
  intros H. unfold GetFromContext. now rewrite bool_decide_eq_false_2.
Qed.

Lemma GetFromContext_nil h ctx dest :
  Value_Kind (reflect_ValueOf dest) = kPtr ->
  ctx_Value ctx contextValueKey = anyNil ->
  GetFromContext h ctx dest = Return (h, Some ErrUnchecked).
Proof.
  intros Hk Hv. unfold GetFromContext. rewrite bool_decide_eq_true_2 by assumption.
  now rewrite Hv.
Qed.

Lemma GetFromContext_error h ctx dest err :
  Value_Kind (reflect_ValueOf dest) = kPtr ->
  ctx_Value ctx contextValueKey = anyErr err ->
  GetFromContext h ctx dest
  = Return (h, Some (if errors_Is err ErrMissing || errors_Is err ErrInvalid then err
                     else wrapError (Error ErrInvalid +:+ ": " +:+ Error err) ErrInvalid)).
Proof.
  intros Hk Hv. unfold GetFromContext. rewrite bool_decide_eq_true_2 by assumption.
  rewrite Hv. now destruct (_ || _).
Qed.

(** What [GetFromContext] does with a value when the destination is a
    non-nil pointer, by the test it makes. *)
Lemma GetFromContext_value h ctx T D l t p :
  type_Kind T = kPtr -> type_Elem T = Some D ->
  ctx_Value ctx contextValueKey = anyVal t p ->
  GetFromContext h ctx (Some (T, PAddr l))
  = if AssignableTo D t then
      if directlyAssignable D t then Return (<[l := p]> h, None)
      else Panic ("reflect.Set: value of type " +:+ typeString t
                  +:+ " is not assignable to type " +:+ typeString D)
    else Return (h, Some (wrapError
                            (Error ErrType +:+ ": expecting a " +:+ typeString D
                             +:+ " but got value is a " +:+ typeString t)
                            ErrType)).
Proof.
  intros Hk He Hv. unfold GetFromContext. cbn [reflect_ValueOf Value_Kind].
  rewrite bool_decide_eq_true_2 by assumption. rewrite Hv.
  cbn [negb Value_Elem]. rewrite Hk, He. cbn.
  destruct (AssignableTo D t); cbn; [|reflexivity].
  now destruct (directlyAssignable D t).
Qed.

Lemma ctx_Value_intercepted U a ctx :
  ctx_Value (intercepted U a ctx) contextValueKey = parseMeta U a ctx.
Proof. reflexivity. Qed.

(** With a non-nil pointer destination and a value whose type is not
    assignable to the type of the slot, [GetFromContext] returns the
    [ErrType] error, which names both types, and leaves memory as it was,
    but for one case: a slot of a bidirectional channel type and a value of
    a directional channel type with the same elements pass the test that
    [GetFromContext] makes, and the copy panics. *)
Theorem type_mismatch_unless_channel (h : heap) (ctx : Context) (T D : rtype)
    (l : loc) (t : rtype) (p : payload) :
  type_Kind T = kPtr -> type_Elem T = Some D ->
  ctx_Value ctx contextValueKey = anyVal t p ->
  AssignableTo t D = false ->
  GetFromContext h ctx (Some (T, PAddr l))
  = if bool_decide (type_Kind t = kChan) && specialChannelAssignability t D
    then Panic ("reflect.Set: value of type " +:+ typeString t
                +:+ " is not assignable to type " +:+ typeString D)
    else Return (h, Some (wrapError
                            (Error ErrType +:+ ": expecting a " +:+ typeString D
                             +:+ " but got value is a " +:+ typeString t)
                            ErrType)).
Proof.
  intros Hk He Hv Hna. unfold AssignableTo in Hna.
  rewrite (GetFromContext_value _ _ _ _ _ _ _ Hk He Hv). unfold AssignableTo.
  rewrite Hna.
  destruct (bool_decide (type_Kind t = kChan) && specialChannelAssignability t D) eqn:Hc.
  - now rewrite (special_channel_passes _ _ Hc).
  - destruct (directlyAssignable t D) eqn:Hd; [|reflexivity].
    destruct (directlyAssignable_converse _ _ Hd); congruence.
Qed.

(** ** The package *)

Section WithTables.

Variable U : UnicodeTables.

(** [parseMeta] as the source writes it, return by return. *)
Lemma parseMeta_source (a : Authorization) (ctx : Context) :
  parseMeta U a ctx =
  match metadata_FromIncomingContext ctx with
  | None => anyErr ErrMissing
  | Some md =>
    match md_index md MetadataName with
    | [] => anyErr ErrMissing
    | v :: _ =>
      match FindStringSubmatch authorizationMetaRegex v with
      | None =>
        anyErr (fmt_Errorf_w ErrInvalid ": invalid format for authorization metadata")
      | Some res =>
        match validateMethod U (elem_at res 1) with
        | Some err => anyErr err
        | None =>
          match methods a !! elem_at res 1 with
          | Some (Some fn) =>
            match fn ctx (elem_at res 2) with
            | (_, Some err) => anyErr err
            | (value, None) => value
            end
          | _ =>
            anyErr (fmt_Errorf_w ErrInvalid
                      (": authorization method " +:+ dquote +:+ elem_at res 1 +:+ dquote
                       +:+ " is not supported"))
          end
        end
      end
    end
  end.
Proof.
  unfold parseMeta, parseMeta_outcome, validateHeader, decode_header.
  destruct (metadata_FromIncomingContext ctx) as [md|]; [|reflexivity].
  destruct (md_index md MetadataName) as [|v rest]; [reflexivity|].
  destruct (FindStringSubmatch authorizationMetaRegex v) as [res|]; [|reflexivity].
  destruct (validateMethod U (elem_at res 1)); [reflexivity|].
  destruct (methods a !! elem_at res 1) as [[fn|]|]; try reflexivity.
  now destruct (fn ctx (elem_at res 2)) as [value [err|]].
Qed.

Lemma space_not_alnum c :
  perl_space c = true ->
  negb (unicode_IsLetter U (byte_val c)) && negb (unicode_IsDigit U (byte_val c)) = true.
Proof.
  unfold perl_space. cbv zeta. intros H.
  assert (Hc : byte_val c = 9 \/ byte_val c = 10 \/ byte_val c = 12
               \/ byte_val c = 13 \/ byte_val c = 32) by lia.
  destruct Hc as [-> | [-> | [-> | [-> | ->]]]]; reflexivity.
Qed.

Lemma validateMethod_valid m :
  validateMethod U m = None ->
  is_empty m = false /\ strings_ToLower U m = m /\ string_forall not_space m = true.
Proof.
  unfold validateMethod.
  destruct (is_empty m); [discriminate|].
  destruct (contains_space m); [discriminate|].
  destruct (String.eqb m (strings_ToLower U m)) eqn:Hl; [|discriminate].
  cbn [negb]. destruct (existsb _ _) eqn:Hex; [discriminate|]. intros _.
  apply String.eqb_eq in Hl. repeat split; [now symmetry|].
  apply (range_runes_from_no_space
           (fun r => negb (unicode_IsLetter U r) && negb (unicode_IsDigit U r))
           space_not_alnum (String.length m) m (le_n _) Hex).
Qed.

Lemma validateMethod_error m e :
  validateMethod U m = Some e -> errors_Is e ErrInvalidMethod = true.
Proof.
  unfold validateMethod.
  repeat match goal with
         | |- context [if ?b then _ else _] => destruct b
         end; intros [= <-] || discriminate; apply errors_Is_Errorf.
Qed.

Lemma ToLower_MetadataName : strings_ToLower U MetadataName = MetadataName.
Proof. reflexivity. Qed.

Lemma FindStringSubmatch_wire m c :
  is_empty m = false ->
  string_forall not_space m = true ->
  exists whole,
    FindStringSubmatch authorizationMetaRegex (m +:+ " " +:+ c)
    = Some [whole; m; take_while (in_class cls_dot) (drop_while (in_class cls_space) c)].
Proof.
  intros Hne Hns. rewrite FindStringSubmatch_meta.
  change (" " +:+ c) with (String " "%char c).
  destruct (take_while_all (in_class cls_not_space) m " "%char c Hns eq_refl) as [Ht Hd].
  assert (Hmatch : match_here None (m +:+ String " " c)
    = Some [(0%nat, consumed (m +:+ String " " c)
                      (drop_while (in_class cls_dot) (drop_while (in_class cls_space) c)));
            (2%nat, take_while (in_class cls_dot) (drop_while (in_class cls_space) c));
            (1%nat, m)]).
  { unfold match_here, body_here. cbn [line_start]. cbv zeta. rewrite Ht, Hd, Hne.
    cbn [is_empty].
    change (drop_while (in_class cls_space) (String " " c))
      with (drop_while (in_class cls_space) c).
    now rewrite consumed_drop_while, consumed_app. }
  assert (Hfirst : first_match None (m +:+ String " " c)
                   = match_here None (m +:+ String " " c)).
  { rewrite Hmatch. destruct (m +:+ String " " c); cbn [first_match]; now rewrite Hmatch. }
  rewrite Hfirst, Hmatch. cbn [capture Nat.eqb]. eauto.
Qed.

Lemma decode_wire m c :
  validateMethod U m = None ->
  decode_header U (m +:+ " " +:+ c)
  = inr (m, take_while (in_class cls_dot) (drop_while (in_class cls_space) c)).
Proof.
  intros Hm. destruct (validateMethod_valid m Hm) as (Hne & _ & Hns).
  destruct (FindStringSubmatch_wire m c Hne Hns) as [whole Hfind].
  unfold decode_header. rewrite Hfind. cbn [elem_at nth]. now rewrite Hm.
Qed.

Lemma AppendToOutgoingContext_valid ctx s c :
  validateMethod U s = None ->
  exists ctx',
    AppendToOutgoingContext U ctx s c = (Some ctx', None)
    /\ outgoing_header ctx' = [s +:+ " " +:+ c]
    /\ ctx_values ctx' = ctx_values ctx
    /\ ctx_incoming ctx' = ctx_incoming ctx.
Proof.
  intros Hs. destruct (validateMethod_valid s Hs) as (_ & Hlow & _).
  unfold AppendToOutgoingContext. rewrite Hs, Hlow.
  eexists. split; [reflexivity|].
  unfold outgoing_header, metadata_NewOutgoingContext, metadata_FromOutgoingContext,
    MD_Set, md_index.
  cbn [ctx_outgoing ctx_values ctx_incoming].
  rewrite ToLower_MetadataName, lookup_insert_eq. now repeat split.
Qed.

Lemma parseMeta_outcome_first (a : Authorization) (ctx : Context) (md : MD) v rest :
  metadata_FromIncomingContext ctx = Some md ->
  md !! MetadataName = Some (v :: rest) ->
  parseMeta_outcome U a ctx = validateHeader U a ctx v.
Proof.
  intros Hmd Hv. unfold parseMeta_outcome. now rewrite Hmd, (md_index_Some _ _ _ Hv).
Qed.

Lemma validateHeader_malformed (a : Authorization) (ctx : Context) v :
  validateHeader U a ctx v = MalformedHeader
  <-> decode_header U v = inl MalformedHeader.
Proof.
  unfold validateHeader.
  destruct (decode_header U v) as [o | [scheme credential]]; [split; congruence|].
  destruct (methods a !! scheme) as [[fn|]|]; try (split; discriminate).
  destruct (fn ctx credential) as [value [err|]]; split; discriminate.
Qed.

Lemma validateHeader_decoded (a : Authorization) (ctx : Context) v s c fn :
  decode_header U v = inr (s, c) ->
  methods a !! s = Some (Some fn) ->
  outcome_any (validateHeader U a ctx v)
  = match fn ctx c with
    | (_, Some err) => anyErr err
    | (value, None) => value
    end.
Proof.
  intros Hd Hfn. unfold validateHeader. rewrite Hd, Hfn.
  now destruct (fn ctx c) as [value [err|]].
Qed.

(** C1 (amended): for every scheme name [s] that [validateMethod] accepts
    and every credential [c] that does not begin with a space character
    and holds no newline, encoding then decoding round-trips:
    [AppendToOutgoingContext] puts the one header value
    [lowercase(s) + " " + c] in the outgoing metadata, and decoding that
    value gives back [(s, c)]. *)
Theorem encode_decode_roundtrip (ctx : Context) (s c : string) :
  validateMethod U s = None ->
  starts_with_space c = false ->
  has_newline c = false ->
  exists ctx' wire,
    AppendToOutgoingContext U ctx s c = (Some ctx', None)
    /\ outgoing_header ctx' = [wire]
    /\ wire = strings_ToLower U s +:+ " " +:+ c
    /\ decode_header U wire = inr (s, c)
    /\ forall a fn call md rest,
         methods a !! s = Some (Some fn) ->
         metadata_FromIncomingContext call = Some md ->
         md !! MetadataName = Some (wire :: rest) ->
         parseMeta U a call
         = match fn call c with
           | (_, Some err) => anyErr err
           | (value, None) => value
           end.
Proof.
  intros Hs Hlead Hnl.
  destruct (AppendToOutgoingContext_valid ctx s c Hs) as (ctx' & Happ & Hhdr & _).
  destruct (validateMethod_valid s Hs) as (_ & Hlow & _).
  assert (Hdec : decode_header U (s +:+ " " +:+ c) = inr (s, c)).
  { rewrite decode_wire by assumption.
    rewrite drop_while_id by assumption.
    rewrite take_while_id; [reflexivity|].
    unfold has_newline in Hnl. now apply negb_false_iff in Hnl. }
  exists ctx', (s +:+ " " +:+ c).
  split; [exact Happ|]. split; [exact Hhdr|]. split; [now rewrite Hlow|].
  split; [exact Hdec|].
  intros a fn call md rest Hfn Hmd Hv. unfold parseMeta.
  rewrite (parseMeta_outcome_first a call md _ rest Hmd Hv).
  exact (validateHeader_decoded a call _ s c fn Hdec Hfn).
Qed.

(** C8: for every context and every valid scheme name,
    [AppendToOutgoingContext] returns a context whose outgoing metadata
    holds exactly one value under the authorization key, the newly encoded
    credential, whatever the key held before; calling it again on the
    result, with the same or another scheme, leaves exactly the newer
    value. *)
Theorem append_replaces_header (ctx : Context) (s c : string) :
  validateMethod U s = None ->
  exists ctx',
    AppendToOutgoingContext U ctx s c = (Some ctx', None)
    /\ outgoing_header ctx' = [strings_ToLower U s +:+ " " +:+ c]
    /\ forall s2 c2,
         validateMethod U s2 = None ->
         exists ctx'',
           AppendToOutgoingContext U ctx' s2 c2 = (Some ctx'', None)
           /\ outgoing_header ctx'' = [strings_ToLower U s2 +:+ " " +:+ c2].
Proof.
  intros Hs.
  destruct (AppendToOutgoingContext_valid ctx s c Hs) as (ctx' & Happ & Hhdr & _).
  destruct (validateMethod_valid s Hs) as (_ & Hlow & _).
  exists ctx'. rewrite Hlow. repeat split; auto.
  intros s2 c2 Hs2.
  destruct (AppendToOutgoingContext_valid ctx' s2 c2 Hs2) as (ctx'' & Happ2 & Hhdr2 & _).
  destruct (validateMethod_valid s2 Hs2) as (_ & Hlow2 & _).
  exists ctx''. rewrite Hlow2. now split.
Qed.

(** C5: for every call and every validation outcome, the unary and the
    stream interceptor return what the wrapped handler returns on a
    derived context (for a stream, on a stream whose context is the
    derived one) that holds the outcome under the package's key; the other
    values and the metadata of the context are kept.  The handler is
    called whatever the outcome is. *)
Theorem interceptors_always_call_handler
    {Req Resp Info Srv SResp : Type} (a : Authorization)
    (ctx : Context) (req : Req) (info : Info) (handler : Context -> Req -> Resp)
    (srv : Srv) (stream : ServerStream) (shandler : Srv -> ServerStream -> SResp) :
  UnaryInterceptor U a ctx req info handler = handler (intercepted U a ctx) req
  /\ StreamInterceptor U a srv stream info shandler
     = shandler srv (utils_ServerStream stream (intercepted U a (stream_Context stream)))
  /\ stream_Context (utils_ServerStream stream (intercepted U a (stream_Context stream)))
     = intercepted U a (stream_Context stream)
  /\ forall call,
       ctx_Value (intercepted U a call) contextValueKey
       = outcome_any (parseMeta_outcome U a call)
       /\ ctx_incoming (intercepted U a call) = ctx_incoming call
       /\ ctx_outgoing (intercepted U a call) = ctx_outgoing call
       /\ forall n, ctx_Value (intercepted U a call) (otherKey n)
                    = ctx_Value call (otherKey n).
Proof.
  split; [reflexivity|]. split; [reflexivity|]. split; [reflexivity|].
  intros call. split; [apply ctx_Value_intercepted|]. now repeat split.
Qed.

(** C6: if the call has no incoming metadata, or the authorization key is
    absent or has no value, the outcome is [Missing]; if the key has one
    or more values, the outcome is that of validating the first one, and
    the values after it play no part and cause no error. *)
Theorem first_header_value_only (a : Authorization) (ctx : Context) :
  (metadata_FromIncomingContext ctx = None ->
   parseMeta_outcome U a ctx = Missing /\ parseMeta U a ctx = anyErr ErrMissing)
  /\ (forall md,
        metadata_FromIncomingContext ctx = Some md ->
        md !! MetadataName = None \/ md !! MetadataName = Some [] ->
        parseMeta_outcome U a ctx = Missing /\ parseMeta U a ctx = anyErr ErrMissing)
  /\ (forall md v rest,
        metadata_FromIncomingContext ctx = Some md ->
        md !! MetadataName = Some (v :: rest) ->
        parseMeta_outcome U a ctx = validateHeader U a ctx v
        /\ parseMeta_outcome U a ctx <> Missing).
Proof.
  split; [|split].
  - unfold parseMeta, parseMeta_outcome. intros ->. now split.
  - unfold parseMeta, parseMeta_outcome. intros md -> [H | H];
      [rewrite (md_index_None _ _ H) | rewrite (md_index_Some _ _ _ H)]; now split.
  - intros md v rest Hmd Hv. rewrite (parseMeta_outcome_first a ctx md v rest Hmd Hv).
    split; [reflexivity|].
    unfold validateHeader, decode_header.
    destruct (FindStringSubmatch _ _) as [res|]; [|discriminate].
    destruct (validateMethod _ _); [discriminate|].
    destruct (methods a !! _) as [[fn|]|]; try discriminate.
    destruct (fn ctx _) as [? [?|]]; discriminate.
Qed.

Lemma decode_header_malformed v :
  decode_header U v = inl MalformedHeader
  <-> FindStringSubmatch authorizationMetaRegex v = None.
Proof.
  unfold decode_header. destruct (FindStringSubmatch _ v) as [res|].
  - destruct (validateMethod U _); split; discriminate.
  - split; reflexivity.
Qed.

(** C4 (amended): decoding fails with [MalformedHeader] exactly for the
    texts in which no line (at the start of the text or after a newline)
    begins with one or more non-space characters followed by a space
    character.  Every text without a space character, the empty one
    included, fails so; no text that matches the pattern anchored at the
    beginning of the text does. *)
Theorem malformed_header_iff (v : string) :
  (decode_header U v = inl MalformedHeader <-> ~ token_line v)
  /\ (forall a ctx md rest,
        metadata_FromIncomingContext ctx = Some md ->
        md !! MetadataName = Some (v :: rest) ->
        (parseMeta_outcome U a ctx = MalformedHeader <-> ~ token_line v))
  /\ (string_forall not_space v = true -> decode_header U v = inl MalformedHeader)
  /\ (FindStringSubmatch anchoredPattern v <> None ->
      decode_header U v <> inl MalformedHeader).
Proof.
  assert (Hiff : decode_header U v = inl MalformedHeader <-> ~ token_line v).
  { rewrite decode_header_malformed, FindStringSubmatch_meta.
    rewrite <- (first_match_None v None).
    destruct (first_match None v); split; congruence. }
  split; [exact Hiff|]. split; [|split].
  - intros a ctx md rest Hmd Hv.
    now rewrite (parseMeta_outcome_first a ctx md v rest Hmd Hv), validateHeader_malformed.
  - intros Hns. apply Hiff. intros (pre & tok & w & rest & -> & _ & _ & _ & Hw).
    rewrite !string_forall_app in Hns. cbn [string_forall] in Hns.
    unfold not_space at 3 in Hns. rewrite Hw in Hns.
    cbn in Hns. rewrite !andb_false_r in Hns. discriminate.
  - intros Ha Hd. apply Hiff in Hd. apply Hd.
    apply FindStringSubmatch_anchored, body_here_Some in Ha
      as (tok & w & rest & -> & Hne & Hns & Hw).
    exists EmptyString, tok, w, rest. now repeat split.
Qed.

(** C2 (amended): with a pointer destination, [GetFromContext] returns
    [ErrMissing] for the outcome [Missing]; for [MalformedHeader] and
    [UnsupportedScheme] it returns an error that matches [ErrInvalid] and
    not [ErrMissing]; for [ValidatorError] it returns the validator's own
    error when that matches [ErrMissing], and otherwise an error that
    matches [ErrInvalid] and not [ErrMissing].  [errors.Is] tells
    [Missing] from the other three, and these from one another only by
    their message. *)
Theorem failure_kinds_surface (a : Authorization) (ctx : Context) (h : heap)
    (dest : option typed) :
  Value_Kind (reflect_ValueOf dest) = kPtr ->
  match parseMeta_outcome U a ctx with
  | Missing =>
    GetFromContext h (intercepted U a ctx) dest = Return (h, Some ErrMissing)
  | MalformedHeader | UnsupportedScheme _ =>
    exists e,
      GetFromContext h (intercepted U a ctx) dest = Return (h, Some e)
      /\ errors_Is e ErrInvalid = true /\ errors_Is e ErrMissing = false
  | ValidatorError cause =>
    exists e,
      GetFromContext h (intercepted U a ctx) dest = Return (h, Some e)
      /\ if errors_Is cause ErrMissing then e = cause
         else errors_Is e ErrInvalid = true /\ errors_Is e ErrMissing = false
  | InvalidSchemeName _ | Success _ => True
  end.
Proof.
  intros Hk.
  pose proof (ctx_Value_intercepted U a ctx) as Hv. unfold parseMeta in Hv.
  destruct (parseMeta_outcome U a ctx) as [| |err|scheme|cause|value];
    cbn [outcome_any] in Hv; try exact I;
    rewrite (GetFromContext_error _ _ _ _ Hk Hv).
  - reflexivity.
  - eexists. split; [reflexivity|]. split; reflexivity.
  - eexists. split; [reflexivity|]. split; reflexivity.
  - eexists. split; [reflexivity|].
    destruct (errors_Is cause ErrMissing) eqn:Hm; cbn [orb]; [reflexivity|].
    destruct (errors_Is cause ErrInvalid) eqn:Hi; [now split | split; reflexivity].
Qed.

(** C3 (amended): for every name that fails the scheme-name rule, with
    the error [e] of [validateMethod]: [e] matches [ErrInvalidMethod];
    [AppendToOutgoingContext] and the option of [WithMethodFunction]
    return [e]; [New] returns an error that quotes [e]'s message and
    matches [ErrInvalidOptionValue] alone; and [parseMeta] returns [e]
    when the name is the scheme of the header, which takes a name that is
    not empty and holds no space character. *)
Theorem invalid_scheme_name_sites (name : string) (e : error) :
  validateMethod U name = Some e ->
  errors_Is e ErrInvalidMethod = true
  /\ (forall ctx c, AppendToOutgoingContext U ctx name c = (None, Some e))
  /\ (forall fn a, WithMethodFunction U name (Some fn) a = (a, Some e))
  /\ (forall fn opts,
        exists e',
          New (WithMethodFunction U name (Some fn) :: opts) = (None, Some e')
          /\ Error e' = "invalid option value : " +:+ Error e
          /\ error_kinds e' = [ErrInvalidOptionValue])
  /\ (is_empty name = false -> string_forall not_space name = true ->
      forall a ctx md c rest,
        metadata_FromIncomingContext ctx = Some md ->
        md !! MetadataName = Some ((name +:+ " " +:+ c) :: rest) ->
        parseMeta_outcome U a ctx = InvalidSchemeName e
        /\ parseMeta U a ctx = anyErr e).
Proof.
  intros He. split; [exact (validateMethod_error _ _ He)|].
  split; [|split; [|split]].
  - intros ctx c. unfold AppendToOutgoingContext. now rewrite He.
  - intros fn a. unfold WithMethodFunction. now rewrite He.
  - intros fn opts. unfold New. cbn [apply_options]. unfold WithMethodFunction.
    rewrite He. eexists. split; [reflexivity|]. split; reflexivity.
  - intros Hne Hns a ctx md c rest Hmd Hval.
    assert (Ho : parseMeta_outcome U a ctx = InvalidSchemeName e).
    { unfold parseMeta_outcome. rewrite Hmd, (md_index_Some _ _ _ Hval).
      unfold validateHeader, decode_header.
      destruct (FindStringSubmatch_wire name c Hne Hns) as [whole ->].
      cbn [elem_at nth]. now rewrite He. }
    split; [exact Ho|]. unfold parseMeta. now rewrite Ho.
Qed.

(** C9 (amended): if the validator of the scheme returns a nil value and
    no error, the interceptor attaches nil; every later [GetFromContext]
    on that context with a pointer destination returns [ErrUnchecked],
    and with any destination it returns what it returns on a context no
    interceptor has touched: never a success, never a validator's error. *)
Theorem nil_success_is_unchecked (a : Authorization) (ctx : Context) (h : heap)
    (dest : option typed) :
  parseMeta_outcome U a ctx = Success anyNil ->
  ctx_Value (intercepted U a ctx) contextValueKey = anyNil
  /\ (Value_Kind (reflect_ValueOf dest) = kPtr ->
      GetFromContext h (intercepted U a ctx) dest = Return (h, Some ErrUnchecked))
  /\ (forall ctx0,
        ctx_Value ctx0 contextValueKey = anyNil ->
        GetFromContext h (intercepted U a ctx) dest = GetFromContext h ctx0 dest).
Proof.
  intros Ho.
  assert (Hv : ctx_Value (intercepted U a ctx) contextValueKey = anyNil).
  { rewrite ctx_Value_intercepted. unfold parseMeta. now rewrite Ho. }
  split; [exact Hv|]. split.
  - intros Hk. now apply GetFromContext_nil.
  - intros ctx0 Hv0.
    destruct (decide (Value_Kind (reflect_ValueOf dest) = kPtr)) as [Hk | Hk].
    + now rewrite !GetFromContext_nil.
    + now rewrite !GetFromContext_not_pointer.
Qed.

(** C10: if the context holds a success value and the destination is a
    nil pointer of some pointer type, [GetFromContext] panics (the type of
    the pointed-to slot is asked of the zero Value) and returns no error. *)
Theorem typed_nil_pointer_panics (h : heap) (ctx : Context) (t : rtype) (p : payload)
    (T : rtype) :
  ctx_Value ctx contextValueKey = anyVal t p ->
  type_Kind T = kPtr ->
  GetFromContext h ctx (Some (T, PNil))
  = Panic "reflect: call of reflect.Value.Type on zero Value".
Proof.
  intros Hv Hk. destruct (type_Elem_ptr T Hk) as [D He].
  unfold GetFromContext. cbn [reflect_ValueOf Value_Kind].
  rewrite bool_decide_eq_true_2 by assumption. rewrite Hv.
  cbn [negb Value_Elem]. now rewrite Hk, He.
Qed.

End WithTables.

(** ** The package on the repository's own test inputs *)

Example validateMethod_tests :
  validateMethod latin1_tables EmptyString = Some (fmt_Errorf_w ErrInvalidMethod ": is empty")
  /\ validateMethod latin1_tables "  " = Some has_whitespace
  /\ validateMethod latin1_tables "Bearer" = Some not_lowercase
  /\ validateMethod latin1_tables "a-b"
     = Some (fmt_Errorf_w ErrInvalidMethod ": must only contains alphanumeric characters")
  /\ validateMethod latin1_tables "a" = None
  /\ validateMethod latin1_tables "42" = None
  /\ validateMethod latin1_tables "bearer" = None.
Proof. repeat split; vm_compute; reflexivity. Qed.

Example validateMethod_unicode_test :
  range_runes cjk_name = [24977; 25818]
  /\ validateMethod cjk_tables cjk_name = None
  /\ option_map outgoing_header
       (fst (AppendToOutgoingContext cjk_tables context_TODO cjk_name "a weird one"))
     = Some [cjk_name +:+ " a weird one"]
  /\ decode_header cjk_tables (cjk_name +:+ " a weird one") = inr (cjk_name, "a weird one").
Proof. repeat split; vm_compute; reflexivity. Qed.

Example New_tests :
  New [WithMethodFunction latin1_tables "foo" (Some sample_validator)]
  = (Some sample_auth, None)
  /\ option_map error_kinds
       (snd (New [WithMethodFunction latin1_tables EmptyString (Some sample_validator)]))
     = Some [ErrInvalidOptionValue]
  /\ option_map error_kinds (snd (New [WithMethodFunction latin1_tables "test" None]))
     = Some [ErrInvalidOptionValue].
Proof. repeat split; vm_compute; reflexivity. Qed.

Example parseMeta_tests :
  parseMeta latin1_tables sample_auth (incoming "foo bar") = anyVal t_string (PString "ok")
  /\ parseMeta latin1_tables sample_auth
       (incoming ("foo   " +:+ String (ascii_of_nat 9) " bar"))
     = anyVal t_string (PString "ok")
  /\ parseMeta latin1_tables sample_auth (incoming "foo baz") = anyErr (errorString 7 "boo")
  /\ parseMeta latin1_tables sample_auth context_TODO = anyErr ErrMissing
  /\ parseMeta_outcome latin1_tables sample_auth (incoming "coucou") = MalformedHeader
  /\ parseMeta latin1_tables sample_auth (incoming "heLLo monde") = anyErr not_lowercase
  /\ parseMeta_outcome latin1_tables sample_auth (incoming "bearer token")
     = UnsupportedScheme "bearer".
Proof. repeat split; vm_compute; reflexivity. Qed.

Example GetFromContext_tests :
  GetFromContext sample_heap context_TODO (Some (t_int, PInt 5))
  = Return (sample_heap, Some (fmt_Errorf_w ErrType ": dest must be a pointer"))
  /\ GetFromContext sample_heap context_TODO string_ptr
     = Return (sample_heap, Some ErrUnchecked)
  /\ GetFromContext sample_heap
       (intercepted latin1_tables sample_auth (incoming "foo bar")) string_ptr
     = Return (<[1%positive := PString "ok"]> sample_heap, None)
  /\ option_map error_kinds
       (result_error
          (GetFromContext sample_heap
             (intercepted latin1_tables sample_auth (incoming "foo bar"))
             (Some (t_ptr t_int, PAddr 1%positive))))
     = Some [ErrType].
Proof. repeat split; vm_compute; reflexivity. Qed.

(** ** Witnesses and counterexamples *)

(** C1, as stated, fails: a credential that begins with a space loses it.
    Encoding [("a", " x")] gives the header value ["a  x"], which decodes
    to [("a", "x")]. *)
Lemma leading_space_is_not_preserved :
  validateMethod latin1_tables "a" = None
  /\ option_map outgoing_header
       (fst (AppendToOutgoingContext latin1_tables context_TODO "a" " x"))
     = Some ["a  x"]
  /\ decode_header latin1_tables "a  x" = inr ("a", "x")
  /\ decode_header latin1_tables "a  x" <> inr ("a", " x").
Proof. repeat split; try (vm_compute; reflexivity). vm_compute. discriminate. Qed.

Lemma encode_decode_roundtrip_witness :
  validateMethod latin1_tables "bearer" = None
  /\ starts_with_space "to ken" = false
  /\ has_newline "to ken" = false
  /\ exists ctx' wire,
       AppendToOutgoingContext latin1_tables context_TODO "bearer" "to ken"
       = (Some ctx', None)
       /\ outgoing_header ctx' = [wire]
       /\ wire = strings_ToLower latin1_tables "bearer" +:+ " " +:+ "to ken"
       /\ decode_header latin1_tables wire = inr ("bearer", "to ken")
       /\ forall a fn call md rest,
            methods a !! "bearer" = Some (Some fn) ->
            metadata_FromIncomingContext call = Some md ->
            md !! MetadataName = Some (wire :: rest) ->
            parseMeta latin1_tables a call
            = match fn call "to ken" with
              | (_, Some err) => anyErr err
              | (value, None) => value
              end.
Proof.
  split; [vm_compute; reflexivity|].
  split; [reflexivity|].
  split; [reflexivity|].
  apply (encode_decode_roundtrip latin1_tables context_TODO "bearer" "to ken");
    vm_compute; reflexivity.
Defined.

(** C2, as stated, fails: a malformed header, an unsupported scheme and a
    validator's error all surface as errors that match [ErrInvalid] and no
    other error variable of the package. *)
Lemma three_failures_one_kind :
  parseMeta_outcome latin1_tables sample_auth (incoming "coucou") = MalformedHeader
  /\ parseMeta_outcome latin1_tables sample_auth (incoming "ghost token")
     = UnsupportedScheme "ghost"
  /\ parseMeta_outcome latin1_tables sample_auth (incoming "foo baz")
     = ValidatorError (errorString 7 "boo")
  /\ option_map error_kinds
       (result_error
          (GetFromContext sample_heap
             (intercepted latin1_tables sample_auth (incoming "coucou")) string_ptr))
     = Some [ErrInvalid]
  /\ option_map error_kinds
       (result_error
          (GetFromContext sample_heap
             (intercepted latin1_tables sample_auth (incoming "ghost token")) string_ptr))
     = Some [ErrInvalid]
  /\ option_map error_kinds
       (result_error
          (GetFromContext sample_heap
             (intercepted latin1_tables sample_auth (incoming "foo baz")) string_ptr))
     = Some [ErrInvalid].
Proof. repeat split; vm_compute; reflexivity. Qed.

Lemma failure_kinds_surface_witness :
  Value_Kind (reflect_ValueOf string_ptr) = kPtr
  /\ exists e,
       GetFromContext sample_heap
         (intercepted latin1_tables sample_auth (incoming "ghost token")) string_ptr
       = Return (sample_heap, Some e)
       /\ errors_Is e ErrInvalid = true /\ errors_Is e ErrMissing = false.
Proof.
  split; [reflexivity|].
  exact (failure_kinds_surface latin1_tables sample_auth (incoming "ghost token")
           sample_heap string_ptr eq_refl).
Defined.

(** C3, as stated, fails: [New] reports a name that fails the rule as
    [ErrInvalidOptionValue], which does not match [ErrInvalidMethod]; and
    [parseMeta] never sees a name that holds a space, it reads the part
    before the space as the scheme. *)
Lemma registration_reports_option_error :
  validateMethod latin1_tables "Bearer" = Some not_lowercase
  /\ option_map error_kinds
       (snd (New [WithMethodFunction latin1_tables "Bearer" (Some sample_validator)]))
     = Some [ErrInvalidOptionValue]
  /\ validateMethod latin1_tables "a b" = Some has_whitespace
  /\ parseMeta_outcome latin1_tables sample_auth (incoming ("a b" +:+ " x"))
     = UnsupportedScheme "a".
Proof. repeat split; vm_compute; reflexivity. Qed.

Lemma invalid_scheme_name_sites_witness :
  validateMethod latin1_tables "Bearer" = Some not_lowercase
  /\ errors_Is not_lowercase ErrInvalidMethod = true
  /\ (forall ctx c,
        AppendToOutgoingContext latin1_tables ctx "Bearer" c = (None, Some not_lowercase))
  /\ parseMeta latin1_tables sample_auth (incoming "Bearer token") = anyErr not_lowercase.
Proof.
  assert (H : validateMethod latin1_tables "Bearer" = Some not_lowercase)
    by (vm_compute; reflexivity).
  destruct (invalid_scheme_name_sites latin1_tables "Bearer" not_lowercase H)
    as (His & Happ & _ & _ & Hparse).
  split; [exact H|]. split; [exact His|]. split; [exact Happ|].
  apply (Hparse eq_refl eq_refl sample_auth (incoming "Bearer token")
           {[ MetadataName := ["Bearer token"] ]} "token" []); reflexivity.
Defined.

(** C4, as stated, fails: the text made of a newline and ["foo bar"]
    does not match the pattern anchored at the beginning of the text, and
    decoding it does not fail: the second line is read, and the call is
    validated with it. *)
Lemma second_line_is_decoded :
  FindStringSubmatch anchoredPattern (newline +:+ "foo bar") = None
  /\ decode_header latin1_tables (newline +:+ "foo bar") = inr ("foo", "bar")
  /\ decode_header latin1_tables (newline +:+ "foo bar") <> inl MalformedHeader
  /\ parseMeta_outcome latin1_tables sample_auth (incoming (newline +:+ "foo bar"))
     = Success (anyVal t_string (PString "ok")).
Proof. repeat split; try (vm_compute; reflexivity). vm_compute. discriminate. Qed.

Lemma first_header_value_only_witness :
  parseMeta_outcome latin1_tables sample_auth (incoming_twice "foo bar" "foo baz")
  = validateHeader latin1_tables sample_auth (incoming_twice "foo bar" "foo baz") "foo bar"
  /\ parseMeta_outcome latin1_tables sample_auth (incoming_twice "foo bar" "foo baz")
     <> Missing.
Proof.
  apply (proj2 (proj2 (first_header_value_only latin1_tables sample_auth
                         (incoming_twice "foo bar" "foo baz")))
           {[ MetadataName := ["foo bar"; "foo baz"] ]} "foo bar" ["foo baz"]);
    reflexivity.
Defined.

(** C7: the code at the failing input.  The validator answers with a
    receive-only channel and the destination points to a slot for a
    bidirectional one.  The value's type is not assignable to the
    destination's, so C7 asks for the [ErrType] error and an untouched
    slot; the test that [GetFromContext] makes is the converse one
    (destination's type assignable to the value's), it passes, and
    [Value.Set] panics. *)
Theorem receive_only_channel_panics :
  parseMeta_outcome latin1_tables chan_auth (incoming "foo bar")
  = Success (anyVal (t_chan RecvDir t_int) (PRef 0))
  /\ AssignableTo (t_chan RecvDir t_int) (t_chan BothDir t_int) = false
  /\ AssignableTo (t_chan BothDir t_int) (t_chan RecvDir t_int) = true
  /\ GetFromContext chan_heap
       (intercepted latin1_tables chan_auth (incoming "foo bar")) chan_ptr
     = Panic "reflect.Set: value of type <-chan int is not assignable to type chan int".
Proof. repeat split; vm_compute; reflexivity. Qed.

Lemma append_replaces_header_witness :
  validateMethod latin1_tables "foo" = None
  /\ exists ctx',
       AppendToOutgoingContext latin1_tables context_TODO "foo" "bar" = (Some ctx', None)
       /\ outgoing_header ctx' = [strings_ToLower latin1_tables "foo" +:+ " " +:+ "bar"]
       /\ forall s2 c2,
            validateMethod latin1_tables s2 = None ->
            exists ctx'',
              AppendToOutgoingContext latin1_tables ctx' s2 c2 = (Some ctx'', None)
              /\ outgoing_header ctx''
                 = [strings_ToLower latin1_tables s2 +:+ " " +:+ c2].
Proof.
  split; [vm_compute; reflexivity|].
  apply (append_replaces_header latin1_tables context_TODO "foo" "bar").
  vm_compute; reflexivity.
Defined.

(** C9, as stated, fails: with a destination that is not a pointer the
    call returns the [ErrType] error, whatever the context holds. *)
Lemma non_pointer_destination_gets_type_error :
  parseMeta_outcome latin1_tables nil_auth (incoming "foo bar") = Success anyNil
  /\ GetFromContext sample_heap
       (intercepted latin1_tables nil_auth (incoming "foo bar")) (Some (t_int, PInt 5))
     = Return (sample_heap, Some (fmt_Errorf_w ErrType ": dest must be a pointer"))
  /\ errors_Is (fmt_Errorf_w ErrType ": dest must be a pointer") ErrUnchecked = false.
Proof. repeat split; vm_compute; reflexivity. Qed.

Lemma nil_success_is_unchecked_witness :
  parseMeta_outcome latin1_tables nil_auth (incoming "foo bar") = Success anyNil
  /\ GetFromContext sample_heap
       (intercepted latin1_tables nil_auth (incoming "foo bar")) string_ptr
     = Return (sample_heap, Some ErrUnchecked).
Proof.
  assert (H : parseMeta_outcome latin1_tables nil_auth (incoming "foo bar") = Success anyNil)
    by (vm_compute; reflexivity).
  split; [exact H|].
  apply (proj1 (proj2 (nil_success_is_unchecked latin1_tables nil_auth
                         (incoming "foo bar") sample_heap string_ptr H))).
  reflexivity.
Defined.

Lemma typed_nil_pointer_panics_witness :
  ctx_Value (intercepted latin1_tables sample_auth (incoming "foo bar")) contextValueKey
  = anyVal t_string (PString "ok")
  /\ type_Kind (t_ptr t_string) = kPtr
  /\ GetFromContext sample_heap
       (intercepted latin1_tables sample_auth (incoming "foo bar"))
       (Some (t_ptr t_string, PNil))
     = Panic "reflect: call of reflect.Value.Type on zero Value".
Proof.
  assert (H : ctx_Value (intercepted latin1_tables sample_auth (incoming "foo bar"))
                contextValueKey = anyVal t_string (PString "ok"))
    by (vm_compute; reflexivity).
  split; [exact H|]. split; [reflexivity|].
  exact (typed_nil_pointer_panics sample_heap _ _ _ (t_ptr t_string) H eq_refl).
Defined.

(** * Further properties *)

(** ** Names made of ASCII bytes *)

Lemma byte_val_range c : (0 <= byte_val c < 256)%Z.
Proof.
  unfold byte_val. pose proof (N_ascii_bounded c) as H. lia.
Qed.

Lemma byte_of_val c : byte_of (byte_val c) = c.
Proof.
  unfold byte_of. pose proof (byte_val_range c) as H.
  rewrite Z.mod_small by lia. unfold byte_val.
  rewrite N2Z.id. apply ascii_N_embedding.
Qed.

Lemma byte_val_of z : (0 <= z < 256)%Z -> byte_val (byte_of z) = z.
Proof.
  intros H. unfold byte_of, byte_val. rewrite Z.mod_small by lia.
  rewrite N_ascii_embedding by lia. lia.
Qed.

Lemma range_runes_from_ascii n : forall s,
  (String.length s <= n)%nat ->
  string_forall is_ascii_byte s = true ->
  range_runes_from n s = string_bytes s.
Proof.
  induction n as [|n IH]; intros s Hlen Hs.
  - destruct s; [reflexivity | simpl in Hlen; lia].
  - destruct s as [|c s]; [reflexivity|].
    cbn [string_forall] in Hs. apply andb_true_iff in Hs as [Hc Hs].
    cbn [range_runes_from DecodeRuneInString]. cbv zeta.
    unfold is_ascii_byte in Hc. unfold RuneSelf. rewrite Hc.
    cbn [string_drop string_bytes]. f_equal. apply IH; [simpl in Hlen; lia | exact Hs].
Qed.

Lemma range_runes_ascii s :
  string_forall is_ascii_byte s = true -> range_runes s = string_bytes s.
Proof. intros H. now apply range_runes_from_ascii. Qed.

Lemma EncodeRune_ascii r : (0 <= r < 128)%Z -> EncodeRune r = String (byte_of r) EmptyString.
Proof.
  intros H. unfold EncodeRune. cbv zeta.
  replace (in_range 0 127 r) with true; [reflexivity|].
  unfold in_range. symmetry. apply andb_true_iff. lia.
Qed.

Section AsciiTables.

Variable U : UnicodeTables.

Lemma unicode_ToLower_ascii c :
  is_ascii_byte c = true ->
  unicode_ToLower U (byte_val c) = byte_val (lower_byte c)
  /\ (0 <= byte_val (lower_byte c) < 128)%Z.
Proof.
  unfold is_ascii_byte, unicode_ToLower, lower_byte, MaxASCII. intros Hc.
  pose proof (byte_val_range c) as Hr.
  replace (byte_val c <=? 127)%Z with true by (symmetry; lia).
  destruct (in_range 65 90 (byte_val c)) eqn:Hup.
  - unfold in_range in Hup. apply andb_true_iff in Hup as [H1 H2].
    rewrite byte_val_of by lia. lia.
  - lia.
Qed.

Lemma strings_ToLower_ascii s :
  string_forall is_ascii_byte s = true ->
  strings_ToLower U s = string_map lower_byte s.
Proof.
  intros Hs. unfold strings_ToLower, strings_Map. rewrite (range_runes_ascii s Hs).
  induction s as [|c s IH]; [reflexivity|].
  cbn [string_forall] in Hs. apply andb_true_iff in Hs as [Hc Hs].
  cbn [string_bytes fold_right string_map]. cbv zeta.
  destruct (unicode_ToLower_ascii c Hc) as [-> Hr].
  replace (byte_val (lower_byte c) <? 0)%Z with false by (symmetry; lia).
  rewrite EncodeRune_ascii by exact Hr. rewrite byte_of_val, IH by exact Hs.
  reflexivity.
Qed.

End AsciiTables.

Lemma eqb_string_map_lower s :
  String.eqb s (string_map lower_byte s)
  = string_forall (fun c => negb (in_range 65 90 (byte_val c))) s.
Proof.
  induction s as [|c s IH]; [reflexivity|].
  cbn [string_map string_forall String.eqb]. rewrite IH.
  unfold lower_byte. destruct (in_range 65 90 (byte_val c)) eqn:Hup; cbn [negb andb].
  - replace (Ascii.eqb c (byte_of (byte_val c + 32))) with false; [reflexivity|].
    symmetry. apply Ascii.eqb_neq. intros Heq.
    unfold in_range in Hup. apply andb_true_iff in Hup as [H1 H2].
    assert (byte_val c = byte_val (byte_of (byte_val c + 32))) as Hv by now rewrite <- Heq.
    rewrite byte_val_of in Hv by lia. lia.
  - now rewrite Ascii.eqb_refl.
Qed.

Ltac bool_to_Z :=
  rewrite ?andb_true_iff, ?orb_true_iff, ?negb_true_iff, ?andb_false_iff,
    ?orb_false_iff, ?negb_false_iff, ?Z.leb_le, ?Z.leb_gt, ?Z.eqb_eq, ?Z.eqb_neq,
    ?Z.ltb_lt, ?Z.ltb_ge.

Ltac absurd_iff :=
  split;
  [ intros H; discriminate H
  | intros H; decompose [and] H;
    match goal with
    | H' : true = false |- _ => discriminate H'
    | H' : false = true |- _ => discriminate H'
    end ].

Section AsciiNames.

Variable U : UnicodeTables.

Lemma ascii_byte_checks c :
  is_ascii_byte c = true ->
  (negb (byte_val c =? 32)%Z = true
   /\ negb (in_range 65 90 (byte_val c)) = true
   /\ negb (unicode_IsLetter U (byte_val c)) && negb (unicode_IsDigit U (byte_val c)) = false)
  <-> lower_alnum c = true.
Proof.
  unfold is_ascii_byte. intros Hc. pose proof (byte_val_range c) as Hr.
  unfold unicode_IsLetter, unicode_IsDigit, MaxLatin1.
  replace (in_range 0 255 (byte_val c)) with true
    by (symmetry; unfold in_range; apply andb_true_iff; lia).
  replace (byte_val c <=? 255)%Z with true by (symmetry; lia).
  unfold lower_alnum, latin1_letter, in_range. bool_to_Z. lia.
Qed.

Lemma ascii_string_checks m :
  string_forall is_ascii_byte m = true ->
  (contains_space m = false
   /\ string_forall (fun c => negb (in_range 65 90 (byte_val c))) m = true
   /\ existsb (fun r => negb (unicode_IsLetter U r) && negb (unicode_IsDigit U r))
        (string_bytes m) = false)
  <-> string_forall lower_alnum m = true.
Proof.
  unfold contains_space. rewrite negb_false_iff.
  induction m as [|c m IH]; intros Hm; [now cbn|].
  cbn [string_forall] in Hm. apply andb_true_iff in Hm as [Hc Hm].
  cbn [string_forall string_bytes existsb].
  rewrite !andb_true_iff, orb_false_iff, <- (IH Hm), <- (ascii_byte_checks c Hc).
  tauto.
Qed.

(** For a name made of ASCII bytes, whatever the tables say of the
    characters above them: [validateMethod] accepts the name exactly when
    it is not empty and each of its bytes is a lowercase letter [a-z] or
    a digit [0-9]. *)
Theorem validateMethod_ascii (m : string) :
  string_forall is_ascii_byte m = true ->
  validateMethod U m = None
  <-> is_empty m = false /\ string_forall lower_alnum m = true.
Proof.
  intros Hm. rewrite <- (ascii_string_checks m Hm).
  unfold validateMethod.
  rewrite (strings_ToLower_ascii U m Hm), eqb_string_map_lower, (range_runes_ascii m Hm).
  destruct (is_empty m); [absurd_iff|].
  clear Hm. destruct (contains_space m); [absurd_iff|].
  destruct (string_forall _ m); cbn [negb]; [|absurd_iff].
  destruct (existsb _ _); [absurd_iff|].
  now split.
Qed.

End AsciiNames.

(** ** Building the registry *)

Lemma sentinel_kinds msg e :
  In e sentinels -> error_kinds (wrapError msg e) = [e].
Proof.
  cbn [In sentinels]. intros H.
  repeat (destruct H as [<-|H]; [reflexivity|]). destruct H.
Qed.

Lemma apply_options_app pre : forall a0 a post,
  apply_options pre a0 = (Some a, None) ->
  apply_options (pre ++ post) a0 = apply_options post a.
Proof.
  induction pre as [|opt pre IH]; intros a0 a post H; cbn [apply_options app] in *.
  - now injection H as ->.
  - destruct (opt a0) as [a1 [err|]]; [discriminate|]. now apply IH.
Qed.

Lemma apply_options_result opts : forall a0,
  (exists a, apply_options opts a0 = (Some a, None))
  \/ (exists e, apply_options opts a0 = (None, Some e)
                /\ error_kinds e = [ErrInvalidOptionValue]).
Proof.
  induction opts as [|opt opts IH]; intros a0; cbn [apply_options].
  - left. now eexists.
  - destruct (opt a0) as [a1 [err|]]; [|apply IH].
    right. eexists. split; [reflexivity|]. apply sentinel_kinds. cbn. auto.
Qed.

(** [New] returns an instance and no error, or no instance and an error;
    the error matches [ErrInvalidOptionValue] and no other error variable
    of the package, whatever the option returned. *)
Theorem New_instance_or_error (opts : list Options) :
  (exists a, New opts = (Some a, None))
  \/ (exists e, New opts = (None, Some e)
                /\ error_kinds e = [ErrInvalidOptionValue]).
Proof. apply apply_options_result. Qed.

(** [New] stops at the first option that returns an error: when the
    options before it succeed and leave [a], the result is no instance and
    the error [ErrInvalidOptionValue] with the message of that option's
    error after it; the options after it are not run. *)
Theorem New_stops_at_first_failure (pre post : list Options) (opt : Options)
    (a a' : Authorization) (err : error) :
  New pre = (Some a, None) ->
  opt a = (a', Some err) ->
  New (pre ++ opt :: post)
  = (None, Some (wrapError ("invalid option value : " +:+ Error err)
                   ErrInvalidOptionValue)).
Proof.
  unfold New. intros Hpre Hopt.
  rewrite (apply_options_app _ _ _ _ Hpre). cbn [apply_options]. now rewrite Hopt.
Qed.

Section Registry.
Variable U : UnicodeTables.

Lemma WithMethodFunction_ok n f a :
  registration_ok U (n, f) ->
  WithMethodFunction U n f a = ({| methods := <[n := f]> (methods a) |}, None).
Proof.
  intros [Hn Hf]. cbn in Hn, Hf. unfold WithMethodFunction.
  destruct f as [fn|]; [|congruence]. now rewrite Hn.
Qed.

Lemma WithMethodFunction_not_ok n f a :
  ~ registration_ok U (n, f) ->
  exists err, WithMethodFunction U n f a = (a, Some err).
Proof.
  intros Hno. unfold WithMethodFunction. destruct f as [fn|]; [|now eexists].
  destruct (validateMethod U n) eqn:Hn; [now eexists|].
  exfalso. apply Hno. split; [exact Hn | discriminate].
Qed.

Lemma registration_ok_dec r : {registration_ok U r} + {~ registration_ok U r}.
Proof.
  destruct r as [n f]. unfold registration_ok. cbn.
  destruct (validateMethod U n); [right; intros [? _]; discriminate|].
  destruct f; [left; split; [reflexivity | discriminate] | right; intros [_ ?]; congruence].
Qed.

Lemma apply_registrations regs : forall a0,
  Forall (registration_ok U) regs ->
  exists a,
    apply_options (register_all U regs) a0 = (Some a, None)
    /\ forall s, methods a !! s
                 = match last_registered s regs with
                   | Some v => Some v
                   | None => methods a0 !! s
                   end.
Proof.
  induction regs as [|[n f] regs IH]; intros a0 Hok.
  - exists a0. now split.
  - inversion Hok as [|? ? Hr Hrest]; subst.
    cbn [register_all map apply_options fst snd].
    rewrite (WithMethodFunction_ok n f a0 Hr).
    destruct (IH {| methods := <[n := f]> (methods a0) |} Hrest) as (a & Ha & Hl).
    exists a. split; [exact Ha|]. intros s. rewrite Hl. cbn [last_registered methods].
    destruct (last_registered s regs); [reflexivity|].
    destruct (String.eqb_spec n s) as [-> | Hne].
    + now rewrite lookup_insert_eq.
    + now rewrite lookup_insert_ne.
Qed.

(** When every registration has a valid name and a function, [New]
    returns an instance whose table gives, for every name, the function
    of the last registration of that name, and nothing for a name that
    was not registered. *)
Theorem registry_last_registration_wins
    (regs : list (string * option CredentialValidator)) :
  Forall (registration_ok U) regs ->
  exists a,
    New (register_all U regs) = (Some a, None)
    /\ forall s, methods a !! s = last_registered s regs.
Proof.
  intros Hok. destruct (apply_registrations regs {| methods := ∅ |} Hok) as (a & Ha & Hl).
  exists a. split; [exact Ha|]. intros s. rewrite Hl. cbn [methods].
  destruct (last_registered s regs); [reflexivity | apply lookup_empty].
Qed.

Lemma last_registered_in s v regs :
  last_registered s regs = Some v -> In (s, v) regs.
Proof.
  induction regs as [|[n f] regs IH]; cbn [last_registered]; [discriminate|].
  destruct (last_registered s regs) eqn:Hl.
  - intros [= <-]. right. now apply IH.
  - destruct (String.eqb_spec n s) as [-> | Hne]; [|discriminate].
    intros [= <-]. now left.
Qed.

Lemma apply_registrations_success regs : forall a0 a,
  apply_options (register_all U regs) a0 = (Some a, None) ->
  Forall (registration_ok U) regs.
Proof.
  induction regs as [|[n f] regs IH]; intros a0 a H; [constructor|].
  cbn [register_all map apply_options fst snd] in H.
  destruct (registration_ok_dec (n, f)) as [Hr | Hr].
  - rewrite (WithMethodFunction_ok n f a0 Hr) in H.
    constructor; [exact Hr | exact (IH _ _ H)].
  - destruct (WithMethodFunction_not_ok n f a0 Hr) as [err Herr].
    rewrite Herr in H. discriminate.
Qed.

(** An instance that [New] returns for options made by
    [WithMethodFunction] was given valid registrations only, and its
    table holds valid scheme names and functions that are not nil. *)
Theorem registry_well_formed
    (regs : list (string * option CredentialValidator)) (a : Authorization) :
  New (register_all U regs) = (Some a, None) ->
  Forall (registration_ok U) regs
  /\ forall s v, methods a !! s = Some v -> validateMethod U s = None /\ v <> None.
Proof.
  intros Hnew.
  assert (Hok : Forall (registration_ok U) regs)
    by exact (apply_registrations_success regs _ _ Hnew).
  split; [exact Hok|]. intros s v Hs.
  destruct (apply_registrations regs {| methods := ∅ |} Hok) as (a' & Ha & Hl).
  unfold New in Hnew. rewrite Hnew in Ha. injection Ha as <-.
  rewrite Hl in Hs. cbn [methods] in Hs.
  destruct (last_registered s regs) as [w|] eqn:Hw; [|now rewrite lookup_empty in Hs].
  injection Hs as ->. apply last_registered_in in Hw.
  rewrite Forall_forall in Hok. apply (Hok (s, v)), list_elem_of_In, Hw.
Qed.

End Registry.
(** ** The header, encoded and decoded *)

Lemma drop_while_app_all (p : ascii -> bool) (a b : string) :
  string_forall p a = true -> drop_while p (a +:+ b) = drop_while p b.
Proof.
  induction a as [|c a IH]; [reflexivity|].
  cbn [string_forall]. intros H. apply andb_true_iff in H as [Hc Ha].
  rewrite app_cons. cbn [drop_while]. rewrite Hc. now apply IH.
Qed.

Lemma drop_while_not_head (p : ascii -> bool) (s : string) :
  match drop_while p s with
  | EmptyString => True
  | String c _ => p c = false
  end.
Proof.
  destruct (drop_while p s) as [|c t] eqn:H; [exact I|].
  exact (drop_while_head p s c t H).
Qed.

Lemma kept_credential_clean c :
  starts_with_space (kept_credential c) = false
  /\ has_newline (kept_credential c) = false.
Proof.
  unfold kept_credential, has_newline. rewrite string_forall_take_while. split; [|reflexivity].
  pose proof (drop_while_not_head (in_class cls_space) c) as H.
  destruct (drop_while (in_class cls_space) c) as [|x t]; [reflexivity|].
  cbn [take_while]. destruct (in_class cls_dot x); [|reflexivity].
  cbn [starts_with_space]. exact H.
Qed.

Lemma kept_credential_id c :
  starts_with_space c = false -> has_newline c = false -> kept_credential c = c.
Proof.
  intros Hs Hn. unfold kept_credential. rewrite drop_while_id by exact Hs.
  apply take_while_id. unfold has_newline in Hn. now apply negb_false_iff in Hn.
Qed.

Lemma FindStringSubmatch_token m ws c :
  is_empty m = false -> string_forall not_space m = true ->
  is_empty ws = false -> string_forall perl_space ws = true ->
  exists whole,
    FindStringSubmatch authorizationMetaRegex (m +:+ ws +:+ c)
    = Some [whole; m; kept_credential c].
Proof.
  intros Hm Hns Hws Hsp. rewrite FindStringSubmatch_meta.
  destruct ws as [|w ws]; [discriminate|].
  cbn [string_forall] in Hsp. apply andb_true_iff in Hsp as [Hw Hsp].
  rewrite app_cons.
  assert (Hw' : in_class cls_not_space w = false) by (cbn; now rewrite Hw).
  destruct (take_while_all (in_class cls_not_space) m w (ws +:+ c) Hns Hw') as [Ht Hd].
  assert (Hmatch : match_here None (m +:+ String w (ws +:+ c))
    = Some [(0%nat, consumed (m +:+ String w (ws +:+ c))
                      (drop_while (in_class cls_dot) (drop_while (in_class cls_space) c)));
            (2%nat, kept_credential c);
            (1%nat, m)]).
  { unfold match_here, body_here. cbn [line_start]. cbv zeta. rewrite Ht, Hd, Hm.
    cbn [is_empty drop_while in_class]. rewrite Hw.
    rewrite (drop_while_app_all (in_class cls_space) ws c Hsp).
    unfold kept_credential. now rewrite consumed_drop_while, consumed_app. }
  assert (Hfirst : first_match None (m +:+ String w (ws +:+ c))
                   = match_here None (m +:+ String w (ws +:+ c))).
  { rewrite Hmatch. destruct (m +:+ String w (ws +:+ c)); cbn [first_match];
      now rewrite Hmatch. }
  rewrite Hfirst, Hmatch. cbn [capture Nat.eqb]. eauto.
Qed.

Lemma first_match_body s : forall prev cs,
  first_match prev s = Some cs -> exists s', body_here s' = Some cs.
Proof.
  assert (Hhere : forall prev s cs, match_here prev s = Some cs -> body_here s = Some cs).
  { intros prev t cs. unfold match_here. now destruct (line_start prev). }
  induction s as [|c s IH]; intros prev cs; cbn [first_match];
    destruct (match_here prev _) as [cs'|] eqn:Hm.
  - intros [= <-]. eauto.
  - discriminate.
  - intros [= <-]. eauto.
  - apply IH.
Qed.

Lemma body_here_credential s cs :
  body_here s = Some cs -> exists r, capture 2 cs = kept_credential r.
Proof.
  unfold body_here. cbv zeta.
  destruct (is_empty (take_while _ s)); [discriminate|].
  destruct (is_empty (drop_while _ s)); [discriminate|].
  intros [= <-]. cbn [capture Nat.eqb]. rewrite consumed_drop_while.
  now eexists.
Qed.

Section Codec.

Variable U : UnicodeTables.

(** Any run of one or more space characters (space, tab, newline, form
    feed, carriage return) after a valid scheme name separates it from
    the credential: the header decodes to the name and to what is kept
    of the credential, as with a single space. *)
Theorem decode_header_any_separator (m ws c : string) :
  validateMethod U m = None ->
  is_empty ws = false -> string_forall perl_space ws = true ->
  decode_header U (m +:+ ws +:+ c) = inr (m, kept_credential c)
  /\ decode_header U (m +:+ ws +:+ c) = decode_header U (m +:+ " " +:+ c).
Proof.
  intros Hm Hws Hsp. destruct (validateMethod_valid U m Hm) as (Hne & _ & Hns).
  assert (H : forall ws', is_empty ws' = false -> string_forall perl_space ws' = true ->
                          decode_header U (m +:+ ws' +:+ c) = inr (m, kept_credential c)).
  { intros ws' H1 H2.
    destruct (FindStringSubmatch_token m ws' c Hne Hns H1 H2) as [whole Hfind].
    unfold decode_header. rewrite Hfind. cbn [elem_at nth]. now rewrite Hm. }
  split; [now apply H|]. rewrite (H ws Hws Hsp). symmetry. now apply (H " ").
Qed.

(** For every credential, encoding with a valid scheme name then
    decoding gives the name and what is kept of the credential (without
    the space characters it begins with, up to its first newline), and a
    second round trip of that pair gives it back unchanged. *)
Theorem roundtrip_keeps_credential (ctx : Context) (s c : string) :
  validateMethod U s = None ->
  exists ctx' wire,
    AppendToOutgoingContext U ctx s c = (Some ctx', None)
    /\ outgoing_header ctx' = [wire]
    /\ decode_header U wire = inr (s, kept_credential c)
    /\ decode_header U (s +:+ " " +:+ kept_credential c) = inr (s, kept_credential c).
Proof.
  intros Hs.
  destruct (AppendToOutgoingContext_valid U ctx s c Hs) as (ctx' & Happ & Hhdr & _).
  exists ctx', (s +:+ " " +:+ c). split; [exact Happ|]. split; [exact Hhdr|].
  rewrite !(decode_wire U) by exact Hs. split; [reflexivity|].
  destruct (kept_credential_clean c) as [H1 H2].
  fold (kept_credential (kept_credential c)). now rewrite kept_credential_id.
Qed.

(** A successful [AppendToOutgoingContext] changes the authorization key
    of the outgoing metadata and nothing else: the values of the context,
    its incoming metadata and every other key of the outgoing metadata
    are as before. *)
Theorem AppendToOutgoingContext_keeps_the_rest (ctx ctx' : Context) (s c : string) :
  AppendToOutgoingContext U ctx s c = (Some ctx', None) ->
  ctx_values ctx' = ctx_values ctx
  /\ ctx_incoming ctx' = ctx_incoming ctx
  /\ forall k, k <> MetadataName -> outgoing_values ctx' k = outgoing_values ctx k.
Proof.
  unfold AppendToOutgoingContext. destruct (validateMethod U s); [discriminate|].
  intros [= <-]. split; [reflexivity|]. split; [reflexivity|].
  intros k Hk. unfold outgoing_values, metadata_NewOutgoingContext,
    metadata_FromOutgoingContext, MD_Set, md_index. cbn [ctx_outgoing].
  rewrite ToLower_MetadataName, lookup_insert_ne by congruence.
  destruct (ctx_outgoing ctx); [reflexivity | now rewrite lookup_empty].
Qed.

(** Of two calls of [AppendToOutgoingContext] in a row the first leaves
    no trace: the result is that of the second call alone on the context
    the first was given. *)
Theorem AppendToOutgoingContext_last_call_wins (ctx : Context) (s1 c1 s2 c2 : string) :
  validateMethod U s1 = None ->
  validateMethod U s2 = None ->
  exists ctx1,
    AppendToOutgoingContext U ctx s1 c1 = (Some ctx1, None)
    /\ AppendToOutgoingContext U ctx1 s2 c2 = AppendToOutgoingContext U ctx s2 c2.
Proof.
  intros H1 H2. unfold AppendToOutgoingContext. rewrite H1, H2.
  eexists. split; [reflexivity|].
  unfold metadata_NewOutgoingContext, metadata_FromOutgoingContext, MD_Set.
  cbn [ctx_outgoing ctx_values ctx_incoming]. now rewrite insert_insert_eq.
Qed.

(** Whatever header decodes to a pair, the scheme name of the pair is
    valid, its credential neither begins with a space character nor
    holds a newline, and the pair encoded with one space decodes to
    itself. *)
Theorem decoded_pair_is_canonical (v s c : string) :
  decode_header U v = inr (s, c) ->
  validateMethod U s = None
  /\ starts_with_space c = false
  /\ has_newline c = false
  /\ decode_header U (s +:+ " " +:+ c) = inr (s, c).
Proof.
  unfold decode_header at 1. rewrite FindStringSubmatch_meta.
  destruct (first_match None v) as [cs|] eqn:Hm; [|discriminate].
  cbn [elem_at nth].
  destruct (validateMethod U (capture 1 cs)) eqn:Hs; [discriminate|].
  intros [= <- <-].
  destruct (first_match_body _ _ _ Hm) as [s' Hb].
  destruct (body_here_credential _ _ Hb) as [r ->].
  destruct (kept_credential_clean r) as [H1 H2].
  repeat split; try assumption.
  rewrite (decode_wire U) by exact Hs.
  fold (kept_credential (kept_credential r)). now rewrite kept_credential_id.
Qed.

End Codec.
(** ** Reading the outcome *)

Lemma GetFromContext_no_address h ctx T pl t p :
  type_Kind T = kPtr ->
  ctx_Value ctx contextValueKey = anyVal t p ->
  (forall l, pl <> PAddr l) ->
  GetFromContext h ctx (Some (T, pl))
  = Panic "reflect: call of reflect.Value.Type on zero Value".
Proof.
  intros Hk Hv Hpl. destruct (type_Elem_ptr T Hk) as [D He].
  unfold GetFromContext. cbn [reflect_ValueOf Value_Kind].
  rewrite bool_decide_eq_true_2 by assumption. rewrite Hv.
  cbn [negb Value_Elem]. rewrite Hk, He.
  destruct pl; try reflexivity. now destruct (Hpl l).
Qed.

Lemma dest_pointer dest :
  Value_Kind (reflect_ValueOf dest) = kPtr ->
  exists T pl, dest = Some (T, pl) /\ type_Kind T = kPtr.
Proof.
  destruct dest as [[T pl]|]; cbn; [|discriminate]. intros H. now exists T, pl.
Qed.

Lemma payload_address (pl : payload) : (exists l, pl = PAddr l) \/ forall l, pl <> PAddr l.
Proof. destruct pl; try (right; discriminate). left. now eexists. Qed.

Lemma GetFromContext_value_cases h ctx dest t p :
  Value_Kind (reflect_ValueOf dest) = kPtr ->
  ctx_Value ctx contextValueKey = anyVal t p ->
  (exists msg, GetFromContext h ctx dest = Panic msg)
  \/ (exists h', GetFromContext h ctx dest = Return (h', None))
  \/ (exists msg, GetFromContext h ctx dest = Return (h, Some (wrapError msg ErrType))).
Proof.
  intros Hk Hv. destruct (dest_pointer dest Hk) as (T & pl & -> & HT).
  destruct (payload_address pl) as [[l ->]|Hpl].
  - destruct (type_Elem_ptr T HT) as [D He].
    rewrite (GetFromContext_value _ _ _ _ _ _ _ HT He Hv).
    destruct (AssignableTo D t); [|eauto].
    destruct (directlyAssignable D t); eauto.
  - left. eexists. exact (GetFromContext_no_address h ctx T pl t p HT Hv Hpl).
Qed.

(** [GetFromContext] returns no error exactly when the destination is a
    non-nil pointer, the context holds a value, and the type of the value
    and the type of the pointed-to slot are assignable to each other;
    memory then differs in the slot alone, which holds the value. *)
Theorem GetFromContext_success_iff (h h' : heap) (ctx : Context) (dest : option typed) :
  GetFromContext h ctx dest = Return (h', None)
  <-> exists T D l t p,
        dest = Some (T, PAddr l)
        /\ type_Kind T = kPtr /\ type_Elem T = Some D
        /\ ctx_Value ctx contextValueKey = anyVal t p
        /\ directlyAssignable t D = true
        /\ directlyAssignable D t = true
        /\ h' = <[l := p]> h.
Proof.
  split.
  - intros H.
    destruct (decide (Value_Kind (reflect_ValueOf dest) = kPtr)) as [Hk|Hk];
      [|rewrite (GetFromContext_not_pointer _ _ _ Hk) in H; discriminate H].
    destruct (ctx_Value ctx contextValueKey) as [|err|t p] eqn:Hv.
    + rewrite (GetFromContext_nil _ _ _ Hk Hv) in H. discriminate H.
    + rewrite (GetFromContext_error _ _ _ _ Hk Hv) in H. discriminate H.
    + destruct (dest_pointer dest Hk) as (T & pl & -> & HT).
      destruct (payload_address pl) as [[l ->]|Hpl];
        [|rewrite (GetFromContext_no_address _ _ _ _ _ _ HT Hv Hpl) in H; discriminate H].
      destruct (type_Elem_ptr T HT) as [D He].
      rewrite (GetFromContext_value _ _ _ _ _ _ _ HT He Hv) in H. unfold AssignableTo in H.
      destruct (directlyAssignable t D) eqn:H1; [|discriminate H].
      destruct (directlyAssignable D t) eqn:H2; [|discriminate H].
      injection H as <-. now exists T, D, l, t, p.
  - intros (T & D & l & t & p & -> & HT & He & Hv & H1 & H2 & ->).
    rewrite (GetFromContext_value _ _ _ _ _ _ _ HT He Hv). unfold AssignableTo.
    now rewrite H1, H2.
Qed.

(** [GetFromContext] panics exactly when the context holds a value and
    the destination is a pointer that holds no address (a nil pointer),
    or a pointer to a slot whose type is assignable to the value's
    channel type by the rule for channels while the value's type is not
    assignable to the slot's.  It never panics on a context that holds
    nothing or an error, nor on a destination that is not a pointer. *)
Theorem GetFromContext_panics_iff (h : heap) (ctx : Context) (dest : option typed) :
  (exists msg, GetFromContext h ctx dest = Panic msg)
  <-> exists T pl t p,
        dest = Some (T, pl)
        /\ type_Kind T = kPtr
        /\ ctx_Value ctx contextValueKey = anyVal t p
        /\ ((forall l, pl <> PAddr l)
            \/ exists D,
                 type_Elem T = Some D
                 /\ directlyAssignable D t = false
                 /\ type_Kind t = kChan
                 /\ specialChannelAssignability t D = true).
Proof.
  split.
  - intros [msg H].
    destruct (decide (Value_Kind (reflect_ValueOf dest) = kPtr)) as [Hk|Hk];
      [|rewrite (GetFromContext_not_pointer _ _ _ Hk) in H; discriminate H].
    destruct (ctx_Value ctx contextValueKey) as [|err|t p] eqn:Hv.
    + rewrite (GetFromContext_nil _ _ _ Hk Hv) in H. discriminate H.
    + rewrite (GetFromContext_error _ _ _ _ Hk Hv) in H. discriminate H.
    + destruct (dest_pointer dest Hk) as (T & pl & -> & HT).
      exists T, pl, t, p. repeat split; try assumption.
      destruct (payload_address pl) as [[l ->]|Hpl]; [right|now left].
      destruct (type_Elem_ptr T HT) as [D He]. exists D. split; [exact He|].
      rewrite (GetFromContext_value _ _ _ _ _ _ _ HT He Hv) in H. unfold AssignableTo in H.
      destruct (directlyAssignable t D) eqn:H1; [|discriminate H].
      destruct (directlyAssignable D t) eqn:H2; [discriminate H|].
      split; [reflexivity|].
      destruct (directlyAssignable_converse _ _ H1) as [H3|H3]; [congruence|].
      apply andb_true_iff in H3 as [H3 H4]. now apply bool_decide_eq_true in H3.
  - intros (T & pl & t & p & -> & HT & Hv & [Hpl|(D & He & H2 & Hc & Hs)]).
    + eexists. exact (GetFromContext_no_address h ctx T pl t p HT Hv Hpl).
    + destruct (payload_address pl) as [[l ->]|Hpl];
        [|eexists; exact (GetFromContext_no_address h ctx T pl t p HT Hv Hpl)].
      rewrite (GetFromContext_value _ _ _ _ _ _ _ HT He Hv). unfold AssignableTo.
      assert (H1 : directlyAssignable t D = true).
      { apply special_channel_passes. rewrite Hs, bool_decide_eq_true_2; auto. }
      rewrite H1, H2. now eexists.
Qed.

(** An error that [GetFromContext] returns matches [ErrType],
    [ErrMissing] or [ErrInvalid], or is [ErrUnchecked]; memory is left as
    it was. *)
Theorem GetFromContext_error_is_documented (h h' : heap) (ctx : Context)
    (dest : option typed) (e : error) :
  GetFromContext h ctx dest = Return (h', Some e) ->
  h' = h
  /\ (errors_Is e ErrType = true \/ e = ErrUnchecked
      \/ errors_Is e ErrMissing = true \/ errors_Is e ErrInvalid = true).
Proof.
  intros H.
  destruct (decide (Value_Kind (reflect_ValueOf dest) = kPtr)) as [Hk|Hk].
  2:{ rewrite (GetFromContext_not_pointer _ _ _ Hk) in H. injection H as <- <-.
      split; [reflexivity|]. left. apply errors_Is_Errorf. }
  destruct (ctx_Value ctx contextValueKey) as [|err|t p] eqn:Hv.
  - rewrite (GetFromContext_nil _ _ _ Hk Hv) in H. injection H as <- <-. auto.
  - rewrite (GetFromContext_error _ _ _ _ Hk Hv) in H. injection H as <- <-.
    split; [reflexivity|]. right. right.
    destruct (errors_Is err ErrMissing) eqn:H1; [now left|].
    destruct (errors_Is err ErrInvalid) eqn:H2; [now right|].
    right. cbn [orb]. apply errors_Is_wrap, errors_Is_refl.
  - destruct (dest_pointer dest Hk) as (T & pl & -> & HT).
    destruct (payload_address pl) as [[l ->]|Hpl];
      [|rewrite (GetFromContext_no_address _ _ _ _ _ _ HT Hv Hpl) in H; discriminate H].
    destruct (type_Elem_ptr T HT) as [D He].
    rewrite (GetFromContext_value _ _ _ _ _ _ _ HT He Hv) in H.
    destruct (AssignableTo D t).
    + destruct (directlyAssignable D t); discriminate H.
    + injection H as <- <-. split; [reflexivity|]. left.
      apply errors_Is_wrap, errors_Is_refl.
Qed.

(** A stored error that matches neither [ErrMissing] nor [ErrInvalid]
    comes out of [GetFromContext] as a new error: its message is that of
    [ErrInvalid], a colon and the stored error's message, it matches
    [ErrInvalid] alone among the package's error variables, and
    [errors.Is] no longer finds the stored error in it. *)
Theorem foreign_error_is_flattened (h : heap) (ctx : Context) (dest : option typed)
    (err : error) :
  Value_Kind (reflect_ValueOf dest) = kPtr ->
  ctx_Value ctx contextValueKey = anyErr err ->
  errors_Is err ErrMissing = false ->
  errors_Is err ErrInvalid = false ->
  exists e,
    GetFromContext h ctx dest = Return (h, Some e)
    /\ Error e = "authorization credentials are invalid: " +:+ Error err
    /\ error_kinds e = [ErrInvalid]
    /\ errors_Is e err = false.
Proof.
  intros Hk Hv H1 H2. rewrite (GetFromContext_error _ _ _ _ Hk Hv), H1, H2. cbn [orb].
  eexists. split; [reflexivity|]. split; [reflexivity|].
  split; [apply sentinel_kinds; cbn; auto 10|].
  cbn [errors_Is]. apply orb_false_iff. split.
  - apply bool_decide_eq_false. intros E. rewrite <- E in H2.
    rewrite errors_Is_wrap in H2 by apply errors_Is_refl. discriminate H2.
  - apply orb_false_iff. split; [|reflexivity].
    apply bool_decide_eq_false. intros E. rewrite <- E in H2.
    rewrite errors_Is_refl in H2. discriminate H2.
Qed.
(** ** From the client to the handler *)

Lemma validateMethod_error_kinds U m e :
  validateMethod U m = Some e -> error_kinds e = [ErrInvalidMethod].
Proof.
  unfold validateMethod.
  repeat match goal with
         | |- context [if ?b then _ else _] => destruct b
         end; intros [= <-] || discriminate; reflexivity.
Qed.

Lemma error_kinds_In e t : In t sentinels -> errors_Is e t = true <-> In t (error_kinds e).
Proof.
  intros Ht. unfold error_kinds. rewrite <- !list_elem_of_In, list_elem_of_filter.
  rewrite list_elem_of_In. tauto.
Qed.

Lemma outcome_any_nil o : outcome_any o = anyNil <-> o = Success anyNil.
Proof.
  destruct o; cbn; split; try discriminate; try congruence.
Qed.

Section EndToEnd.

Variable U : UnicodeTables.

Lemma InvalidSchemeName_origin a ctx e :
  parseMeta_outcome U a ctx = InvalidSchemeName e ->
  exists name, validateMethod U name = Some e.
Proof.
  unfold parseMeta_outcome, validateHeader, decode_header.
  destruct (metadata_FromIncomingContext ctx) as [md|]; [|discriminate].
  destruct (md_index md MetadataName) as [|v rest]; [discriminate|].
  destruct (FindStringSubmatch _ v) as [res|]; [|discriminate].
  destruct (validateMethod U (elem_at res 1)) as [err|] eqn:Hv.
  - intros [= <-]. eauto.
  - destruct (methods a !! _) as [[fn|]|]; try discriminate.
    destruct (fn ctx _) as [value [err|]]; discriminate.
Qed.

(** When the scheme name of the header is not valid, the handler's
    [GetFromContext] with a pointer destination returns a new error with
    the message of [ErrInvalid], a colon and the message of
    [validateMethod]'s error: the latter matches [ErrInvalidMethod]
    alone, the former [ErrInvalid] alone. *)
Theorem invalid_scheme_reaches_handler_as_invalid (a : Authorization) (ctx : Context)
    (h : heap) (dest : option typed) (e : error) :
  Value_Kind (reflect_ValueOf dest) = kPtr ->
  parseMeta_outcome U a ctx = InvalidSchemeName e ->
  exists e',
    GetFromContext h (intercepted U a ctx) dest = Return (h, Some e')
    /\ Error e' = "authorization credentials are invalid: " +:+ Error e
    /\ error_kinds e = [ErrInvalidMethod]
    /\ error_kinds e' = [ErrInvalid].
Proof.
  intros Hk Ho. destruct (InvalidSchemeName_origin _ _ _ Ho) as [name Hn].
  pose proof (validateMethod_error_kinds U _ _ Hn) as Hkinds.
  assert (Hv : ctx_Value (intercepted U a ctx) contextValueKey = anyErr e).
  { rewrite ctx_Value_intercepted. unfold parseMeta. now rewrite Ho. }
  assert (H1 : errors_Is e ErrMissing = false).
  { apply not_true_iff_false. intros H. apply error_kinds_In in H; [|cbn; auto 10].
    rewrite Hkinds in H. cbn in H. destruct H as [H|[]]. discriminate H. }
  assert (H2 : errors_Is e ErrInvalid = false).
  { apply not_true_iff_false. intros H. apply error_kinds_In in H; [|cbn; auto 10].
    rewrite Hkinds in H. cbn in H. destruct H as [H|[]]. discriminate H. }
  rewrite (GetFromContext_error _ _ _ _ Hk Hv), H1, H2. cbn [orb].
  eexists. split; [reflexivity|]. split; [reflexivity|]. split; [exact Hkinds|].
  reflexivity.
Qed.

(** Behind an interceptor, [GetFromContext] with a pointer destination
    returns [ErrUnchecked] exactly when the validator of the scheme
    returned a nil value and no error. *)
Theorem unchecked_after_interceptor_iff (a : Authorization) (ctx : Context) (h : heap)
    (dest : option typed) :
  Value_Kind (reflect_ValueOf dest) = kPtr ->
  result_error (GetFromContext h (intercepted U a ctx) dest) = Some ErrUnchecked
  <-> parseMeta_outcome U a ctx = Success anyNil.
Proof.
  intros Hk. rewrite <- outcome_any_nil. fold (parseMeta U a ctx).
  rewrite <- (ctx_Value_intercepted U a ctx).
  destruct (ctx_Value (intercepted U a ctx) contextValueKey) as [|err|t p] eqn:Hv.
  - rewrite (GetFromContext_nil _ _ _ Hk Hv). cbn. tauto.
  - rewrite (GetFromContext_error _ _ _ _ Hk Hv). cbn [result_error].
    split; [|discriminate]. intros [= H]. exfalso.
    destruct (errors_Is err ErrMissing || errors_Is err ErrInvalid) eqn:Hm;
      [|discriminate H].
    subst err. discriminate Hm.
  - split; [|discriminate]. intros H. exfalso.
    destruct (GetFromContext_value_cases h _ _ _ _ Hk Hv)
      as [[msg E]|[[h' E]|[msg E]]]; rewrite E in H; discriminate H.
Qed.

(** From the client to the handler: when the server receives under the
    authorization key what [AppendToOutgoingContext] put in the client's
    outgoing metadata, and the validator registered for the scheme
    answers a value of type [t] for what is kept of the credential,
    [GetFromContext] with a pointer to a slot of type [t] stores that
    value in the slot and returns no error. *)
Theorem credential_reaches_handler (a : Authorization) (fn : CredentialValidator)
    (client client' call : Context) (md : MD) (s c : string)
    (h : heap) (l : loc) (t : rtype) (p : payload) :
  methods a !! s = Some (Some fn) ->
  AppendToOutgoingContext U client s c = (Some client', None) ->
  metadata_FromIncomingContext call = Some md ->
  md !! MetadataName = Some (outgoing_header client') ->
  fn call (kept_credential c) = (anyVal t p, None) ->
  GetFromContext h (intercepted U a call) (Some (t_ptr t, PAddr l))
  = Return (<[l := p]> h, None).
Proof.
  intros Hfn Happ Hmd Hhdr Hcall.
  assert (Hs : validateMethod U s = None).
  { unfold AppendToOutgoingContext in Happ. now destruct (validateMethod U s). }
  destruct (AppendToOutgoingContext_valid U client s c Hs) as (ctx' & Happ' & Hout & _).
  rewrite Happ in Happ'. injection Happ' as <-. rewrite Hout in Hhdr.
  assert (Hv : ctx_Value (intercepted U a call) contextValueKey = anyVal t p).
  { rewrite ctx_Value_intercepted. unfold parseMeta.
    rewrite (parseMeta_outcome_first U a call md _ _ Hmd Hhdr).
    rewrite (validateHeader_decoded U a call _ s (kept_credential c) fn
               (decode_wire U s c Hs) Hfn).
    now rewrite Hcall. }
  rewrite (GetFromContext_value h _ (t_ptr t) t l t p eq_refl eq_refl Hv).
  unfold AssignableTo, directlyAssignable.
  now rewrite (proj2 (rtype_eqb_eq t t) eq_refl).
Qed.
End EndToEnd.
(** ** The further properties at sample data *)

Lemma validateMethod_ascii_witness :
  string_forall is_ascii_byte "basic" = true
  /\ (validateMethod latin1_tables "basic" = None
      <-> is_empty "basic" = false /\ string_forall lower_alnum "basic" = true).
Proof.
  split; [reflexivity|].
  exact (validateMethod_ascii latin1_tables "basic" eq_refl).
Defined.

Lemma New_stops_at_first_failure_witness :
  New [WithMethodFunction latin1_tables "foo" (Some sample_validator)]
  = (Some sample_auth, None)
  /\ WithMethodFunction latin1_tables "Bar" (Some sample_validator) sample_auth
     = (sample_auth, Some not_lowercase)
  /\ New ([WithMethodFunction latin1_tables "foo" (Some sample_validator)]
          ++ WithMethodFunction latin1_tables "Bar" (Some sample_validator)
          :: [WithMethodFunction latin1_tables "baz" (Some sample_validator)])
     = (None, Some (wrapError ("invalid option value : " +:+ Error not_lowercase)
                      ErrInvalidOptionValue)).
Proof.
  assert (H1 : New [WithMethodFunction latin1_tables "foo" (Some sample_validator)]
               = (Some sample_auth, None)) by reflexivity.
  assert (H2 : WithMethodFunction latin1_tables "Bar" (Some sample_validator) sample_auth
               = (sample_auth, Some not_lowercase)) by reflexivity.
  split; [exact H1|]. split; [exact H2|].
  exact (New_stops_at_first_failure _
           [WithMethodFunction latin1_tables "baz" (Some sample_validator)] _ _ _ _ H1 H2).
Defined.

Lemma registry_last_registration_wins_witness :
  Forall (registration_ok latin1_tables)
    [("foo", Some nil_validator); ("bar", Some chan_validator);
     ("foo", Some sample_validator)]
  /\ exists a,
       New (register_all latin1_tables
              [("foo", Some nil_validator); ("bar", Some chan_validator);
               ("foo", Some sample_validator)])
       = (Some a, None)
       /\ forall s,
            methods a !! s
            = last_registered s
                [("foo", Some nil_validator); ("bar", Some chan_validator);
                 ("foo", Some sample_validator)].
Proof.
  assert (H : Forall (registration_ok latin1_tables)
                [("foo", Some nil_validator); ("bar", Some chan_validator);
                 ("foo", Some sample_validator)]).
  { repeat constructor; discriminate. }
  split; [exact H|].
  exact (registry_last_registration_wins latin1_tables _ H).
Defined.

Lemma registry_well_formed_witness :
  New (register_all latin1_tables [("foo", Some sample_validator)])
  = (Some sample_auth, None)
  /\ Forall (registration_ok latin1_tables) [("foo", Some sample_validator)]
  /\ forall s v,
       methods sample_auth !! s = Some v ->
       validateMethod latin1_tables s = None /\ v <> None.
Proof.
  assert (H : New (register_all latin1_tables [("foo", Some sample_validator)])
              = (Some sample_auth, None)) by reflexivity.
  split; [exact H|].
  exact (registry_well_formed latin1_tables _ _ H).
Defined.

Lemma decode_header_any_separator_witness :
  validateMethod latin1_tables "bearer" = None
  /\ is_empty blanks = false
  /\ string_forall perl_space blanks = true
  /\ decode_header latin1_tables ("bearer" +:+ blanks +:+ "to ken")
     = inr ("bearer", kept_credential "to ken")
  /\ decode_header latin1_tables ("bearer" +:+ blanks +:+ "to ken")
     = decode_header latin1_tables ("bearer" +:+ " " +:+ "to ken").
Proof.
  split; [reflexivity|]. split; [reflexivity|]. split; [reflexivity|].
  exact (decode_header_any_separator latin1_tables "bearer" blanks "to ken"
           eq_refl eq_refl eq_refl).
Defined.

Lemma roundtrip_keeps_credential_witness :
  validateMethod latin1_tables "bearer" = None
  /\ exists ctx' wire,
       AppendToOutgoingContext latin1_tables context_TODO "bearer" (" to" +:+ newline +:+ "ken")
       = (Some ctx', None)
       /\ outgoing_header ctx' = [wire]
       /\ decode_header latin1_tables wire
          = inr ("bearer", kept_credential (" to" +:+ newline +:+ "ken"))
       /\ decode_header latin1_tables
            ("bearer" +:+ " " +:+ kept_credential (" to" +:+ newline +:+ "ken"))
          = inr ("bearer", kept_credential (" to" +:+ newline +:+ "ken")).
Proof.
  split; [reflexivity|].
  exact (roundtrip_keeps_credential latin1_tables context_TODO "bearer"
           (" to" +:+ newline +:+ "ken") eq_refl).
Defined.

Lemma AppendToOutgoingContext_keeps_the_rest_witness :
  AppendToOutgoingContext latin1_tables
    (metadata_NewOutgoingContext (incoming "foo bar") {[ "trace" := ["on"] ]}) "foo" "bar"
  = (Some (metadata_NewOutgoingContext (incoming "foo bar")
             (<[ MetadataName := ["foo bar"] ]> {[ "trace" := ["on"] ]})), None)
  /\ outgoing_values
       (metadata_NewOutgoingContext (incoming "foo bar")
          (<[ MetadataName := ["foo bar"] ]> {[ "trace" := ["on"] ]})) "trace"
     = outgoing_values
         (metadata_NewOutgoingContext (incoming "foo bar") {[ "trace" := ["on"] ]}) "trace".
Proof.
  assert (H : AppendToOutgoingContext latin1_tables
                (metadata_NewOutgoingContext (incoming "foo bar") {[ "trace" := ["on"] ]})
                "foo" "bar"
              = (Some (metadata_NewOutgoingContext (incoming "foo bar")
                         (<[ MetadataName := ["foo bar"] ]> {[ "trace" := ["on"] ]})), None))
    by reflexivity.
  split; [exact H|].
  apply (proj2 (proj2 (AppendToOutgoingContext_keeps_the_rest latin1_tables _ _ _ _ H))).
  discriminate.
Defined.

Lemma AppendToOutgoingContext_last_call_wins_witness :
  validateMethod latin1_tables "foo" = None
  /\ validateMethod latin1_tables "bearer" = None
  /\ exists ctx1,
       AppendToOutgoingContext latin1_tables context_TODO "foo" "bar" = (Some ctx1, None)
       /\ AppendToOutgoingContext latin1_tables ctx1 "bearer" "token"
          = AppendToOutgoingContext latin1_tables context_TODO "bearer" "token".
Proof.
  split; [reflexivity|]. split; [reflexivity|].
  exact (AppendToOutgoingContext_last_call_wins latin1_tables context_TODO
           "foo" "bar" "bearer" "token" eq_refl eq_refl).
Defined.

Lemma decoded_pair_is_canonical_witness :
  decode_header latin1_tables (" " +:+ newline +:+ "foo  bar") = inr ("foo", "bar")
  /\ validateMethod latin1_tables "foo" = None
  /\ starts_with_space "bar" = false
  /\ has_newline "bar" = false
  /\ decode_header latin1_tables ("foo" +:+ " " +:+ "bar") = inr ("foo", "bar").
Proof.
  assert (H : decode_header latin1_tables (" " +:+ newline +:+ "foo  bar")
              = inr ("foo", "bar")) by (vm_compute; reflexivity).
  split; [exact H|].
  exact (decoded_pair_is_canonical latin1_tables _ _ _ H).
Defined.

Lemma type_mismatch_unless_channel_witness :
  ctx_Value (intercepted latin1_tables sample_auth (incoming "foo bar")) contextValueKey
  = anyVal t_string (PString "ok")
  /\ AssignableTo t_string t_int = false
  /\ GetFromContext sample_heap
       (intercepted latin1_tables sample_auth (incoming "foo bar"))
       (Some (t_ptr t_int, PAddr 1%positive))
     = Return (sample_heap,
               Some (wrapError
                       (Error ErrType +:+ ": expecting a " +:+ typeString t_int
                        +:+ " but got value is a " +:+ typeString t_string)
                       ErrType)).
Proof.
  assert (H : ctx_Value (intercepted latin1_tables sample_auth (incoming "foo bar"))
                contextValueKey = anyVal t_string (PString "ok"))
    by (vm_compute; reflexivity).
  split; [exact H|]. split; [reflexivity|].
  exact (type_mismatch_unless_channel sample_heap _ (t_ptr t_int) t_int 1%positive
           t_string (PString "ok") eq_refl eq_refl H eq_refl).
Defined.

Lemma GetFromContext_error_is_documented_witness :
  GetFromContext sample_heap context_TODO string_ptr = Return (sample_heap, Some ErrUnchecked)
  /\ sample_heap = sample_heap
  /\ (errors_Is ErrUnchecked ErrType = true \/ ErrUnchecked = ErrUnchecked
      \/ errors_Is ErrUnchecked ErrMissing = true
      \/ errors_Is ErrUnchecked ErrInvalid = true).
Proof.
  assert (H : GetFromContext sample_heap context_TODO string_ptr
              = Return (sample_heap, Some ErrUnchecked)) by reflexivity.
  split; [exact H|].
  exact (GetFromContext_error_is_documented _ _ _ _ _ H).
Defined.

Lemma foreign_error_is_flattened_witness :
  Value_Kind (reflect_ValueOf string_ptr) = kPtr
  /\ ctx_Value (intercepted latin1_tables foreign_auth (incoming "foo bar")) contextValueKey
     = anyErr ErrInvalidMethod
  /\ errors_Is ErrInvalidMethod ErrMissing = false
  /\ errors_Is ErrInvalidMethod ErrInvalid = false
  /\ exists e,
       GetFromContext sample_heap
         (intercepted latin1_tables foreign_auth (incoming "foo bar")) string_ptr
       = Return (sample_heap, Some e)
       /\ Error e = "authorization credentials are invalid: " +:+ Error ErrInvalidMethod
       /\ error_kinds e = [ErrInvalid]
       /\ errors_Is e ErrInvalidMethod = false.
Proof.
  assert (H : ctx_Value (intercepted latin1_tables foreign_auth (incoming "foo bar"))
                contextValueKey = anyErr ErrInvalidMethod)
    by (vm_compute; reflexivity).
  split; [reflexivity|]. split; [exact H|]. split; [reflexivity|]. split; [reflexivity|].
  exact (foreign_error_is_flattened sample_heap _ string_ptr _ eq_refl H eq_refl eq_refl).
Defined.

Lemma invalid_scheme_reaches_handler_as_invalid_witness :
  Value_Kind (reflect_ValueOf string_ptr) = kPtr
  /\ parseMeta_outcome latin1_tables sample_auth (incoming "Foo bar")
     = InvalidSchemeName not_lowercase
  /\ exists e',
       GetFromContext sample_heap
         (intercepted latin1_tables sample_auth (incoming "Foo bar")) string_ptr
       = Return (sample_heap, Some e')
       /\ Error e' = "authorization credentials are invalid: " +:+ Error not_lowercase
       /\ error_kinds not_lowercase = [ErrInvalidMethod]
       /\ error_kinds e' = [ErrInvalid].
Proof.
  assert (H : parseMeta_outcome latin1_tables sample_auth (incoming "Foo bar")
              = InvalidSchemeName not_lowercase)
    by (vm_compute; reflexivity).
  split; [reflexivity|]. split; [exact H|].
  exact (invalid_scheme_reaches_handler_as_invalid latin1_tables sample_auth _
           sample_heap string_ptr _ eq_refl H).
Defined.

Lemma unchecked_after_interceptor_iff_witness :
  Value_Kind (reflect_ValueOf string_ptr) = kPtr
  /\ (result_error (GetFromContext sample_heap
                      (intercepted latin1_tables nil_auth (incoming "foo bar")) string_ptr)
      = Some ErrUnchecked
      <-> parseMeta_outcome latin1_tables nil_auth (incoming "foo bar") = Success anyNil).
Proof.
  split; [reflexivity|].
  exact (unchecked_after_interceptor_iff latin1_tables nil_auth (incoming "foo bar")
           sample_heap string_ptr eq_refl).
Defined.

Lemma credential_reaches_handler_witness :
  methods sample_auth !! "foo" = Some (Some sample_validator)
  /\ AppendToOutgoingContext latin1_tables context_TODO "foo" " bar"
     = (Some (metadata_NewOutgoingContext context_TODO {[ MetadataName := ["foo  bar"] ]}),
        None)
  /\ sample_validator (incoming "foo  bar") (kept_credential " bar")
     = (anyVal t_string (PString "ok"), None)
  /\ GetFromContext sample_heap
       (intercepted latin1_tables sample_auth (incoming "foo  bar"))
       (Some (t_ptr t_string, PAddr 1%positive))
     = Return (<[1%positive := PString "ok"]> sample_heap, None).
Proof.
  assert (H1 : methods sample_auth !! "foo" = Some (Some sample_validator)) by reflexivity.
  assert (H2 : AppendToOutgoingContext latin1_tables context_TODO "foo" " bar"
               = (Some (metadata_NewOutgoingContext context_TODO
                          {[ MetadataName := ["foo  bar"] ]}), None)) by reflexivity.
  assert (H3 : sample_validator (incoming "foo  bar") (kept_credential " bar")
               = (anyVal t_string (PString "ok"), None)) by reflexivity.
  split; [exact H1|]. split; [exact H2|]. split; [exact H3|].
  exact (credential_reaches_handler latin1_tables sample_auth sample_validator
           context_TODO _ (incoming "foo  bar") {[ MetadataName := ["foo  bar"] ]}
           "foo" " bar" sample_heap 1%positive t_string (PString "ok")
           H1 H2 eq_refl eq_refl H3).
Defined.
